(** * EduPortal data layer: the localStorage / IndexedDB service

    A shallow embedding of [services/db.ts] (users, progress and completions
    in [localStorage], the video catalog in the IndexedDB object store
    [videos]) together with the properties its specification states.

    Conventions of the embedding.
    - TypeScript interfaces are records; an optional field [f?: T] is an
      [option T], [None] meaning that the field is absent.
    - [localStorage] holds strings.  A stored string is represented by what
      [JSON.parse] makes of it: either it is not JSON text at all ([Text]),
      or it is the text of a document ([Doc]) which has the shape the key is
      typed to hold ([Shaped]) or some other shape ([Misshapen]).
      [JSON.stringify] followed by [JSON.parse] is the identity on the values
      this module stores, except that a number which is NaN or infinite
      comes back as [null]; [saveToStorage] stores [Doc (Shaped v)] for the
      value [v] that comes back.  The
      code tells shapes apart with [Array.isArray] and [typeof] only; an
      array or object that passes is taken to be of the TypeScript type at
      which it is read.
    - the object store [videos] has key path [id]: it is a finite map from
      keys to records, iterated in ascending key order.
    - an asynchronous function is a function from the state in which it is
      called to its settled promise and the state it leaves; the two batch
      updates, whose promise may stay pending, say whether it settles.
      Requests to the browser succeed unless said otherwise; [setItem] never
      exceeds the quota.
    - what the browser decides is a parameter: [toLowerCase], the parsing of
      dates, and the order in which [sort] leaves an array when its
      comparator is not consistent. *)

From Stdlib Require Import ZArith.
From Stdlib Require Qcanon.
From stdpp Require Import gmap strings list fin_maps sorting pretty.

Local Open Scope string_scope.
Local Open Scope list_scope.
Local Open Scope Z_scope.

(* ===================================================================== *)
(** ** types.ts *)
(* ===================================================================== *)

Inductive UserType := student | admin.
Inductive Class := class8 | class9 | class10.
Inductive UserStatus := active | disabled.
Inductive VideoStatus := published | draft.
Inductive Subject :=
  | Mathematics | Science | History | English | Geography | Physics
  | Chemistry | Biology | ComputerScience | Economics | Art.

#[global] Instance UserType_eq_dec : EqDecision UserType.
Proof. solve_decision. Defined.

#[global] Instance UserStatus_eq_dec : EqDecision UserStatus.
Proof. solve_decision. Defined.

#[global] Instance Class_eq_dec : EqDecision Class.
Proof. solve_decision. Defined.

#[global] Instance VideoStatus_eq_dec : EqDecision VideoStatus.
Proof. solve_decision. Defined.

#[global] Instance Subject_eq_dec : EqDecision Subject.
Proof. solve_decision. Defined.

Module User.
Record t := mk {
    id : string;
    name : string;
    email : string;
    password : option string;
    type : UserType;
    class : option Class;
    status : UserStatus }.
End User.
Abbreviation User := User.t.

Module Video.
Record t := mk {
    id : string;
    title : string;
    description : string;
    subject : Subject;
    class : Class;
    duration : string;
    views : Z;
    completed : option bool;
    status : VideoStatus;
    thumbnailUrl : string;
    videoUrls : gmap string string;
    tags : option (list string);
    uploadedAt : string }.
End Video.
Abbreviation Video := Video.t.

#[global] Instance Video_eq_dec : EqDecision Video.
Proof. solve_decision. Defined.

(** What a field of type [number] holds: a double, the finite ones being
    rationals, or [null], which is what [JSON.parse] reads where
    [JSON.stringify] was given a NaN or an infinity. *)
Inductive number :=
  | finite (x : Qcanon.Qc)
  | NaN
  | Infinity
  | minus_Infinity
  | null_number.

Module VideoProgress.
Record t := mk { progress : number; duration : number }.
End VideoProgress.
Abbreviation VideoProgress := VideoProgress.t.

(** [interface UserProgress { [videoId: string]: VideoProgress }] *)
Abbreviation UserProgress := (gmap string VideoProgress).

(** [Omit<User, 'id' | 'type' | 'status'>], the argument of [registerStudent]. *)
Module UserData.
Record t := mk {
    name : string;
    email : string;
    password : option string;
    class : option Class }.
End UserData.
Abbreviation UserData := UserData.t.

(** [Partial<User>]: every field optional. *)
Module PartialUser.
Record t := mk {
    id : option string;
    name : option string;
    email : option string;
    password : option string;
    type : option UserType;
    class : option Class;
    status : option UserStatus }.
End PartialUser.
Abbreviation PartialUser := PartialUser.t.

(** [Partial<Video>] *)
Module PartialVideo.
Record t := mk {
    id : option string;
    title : option string;
    description : option string;
    subject : option Subject;
    class : option Class;
    duration : option string;
    views : option Z;
    completed : option bool;
    status : option VideoStatus;
    thumbnailUrl : option string;
    videoUrls : option (gmap string string);
    tags : option (list string);
    uploadedAt : option string }.
End PartialVideo.
Abbreviation PartialVideo := PartialVideo.t.

(** [Omit<Video, 'id'>], the argument of [addVideo]. *)
Module VideoData.
Record t := mk {
    title : string;
    description : string;
    subject : Subject;
    class : Class;
    duration : string;
    views : Z;
    completed : option bool;
    status : VideoStatus;
    thumbnailUrl : string;
    videoUrls : gmap string string;
    tags : option (list string);
    uploadedAt : string }.
End VideoData.
Abbreviation VideoData := VideoData.t.

(* ===================================================================== *)
(** ** JavaScript helpers *)
(* ===================================================================== *)

(** [{ ...a, ...b }] on one field: the field of [b] wins when present. *)
Definition spread {A} (a : A) (b : option A) : A := default a b.

(** The same on a field that is itself optional in the target. *)
Definition spread_opt {A} (a : option A) (b : option A) : option A :=
  match b with Some x => Some x | None => a end.

(** [{ ...user, ...updatedData }] *)
Definition spread_user (u : User) (p : PartialUser) : User :=
  {| User.id := spread (User.id u) (PartialUser.id p);
     User.name := spread (User.name u) (PartialUser.name p);
     User.email := spread (User.email u) (PartialUser.email p);
     User.password := spread_opt (User.password u) (PartialUser.password p);
     User.type := spread (User.type u) (PartialUser.type p);
     User.class := spread_opt (User.class u) (PartialUser.class p);
     User.status := spread (User.status u) (PartialUser.status p) |}.

(** [{ ...video, ...updatedData }] *)
Definition spread_video (v : Video) (p : PartialVideo) : Video :=
  {| Video.id := spread (Video.id v) (PartialVideo.id p);
     Video.title := spread (Video.title v) (PartialVideo.title p);
     Video.description := spread (Video.description v) (PartialVideo.description p);
     Video.subject := spread (Video.subject v) (PartialVideo.subject p);
     Video.class := spread (Video.class v) (PartialVideo.class p);
     Video.duration := spread (Video.duration v) (PartialVideo.duration p);
     Video.views := spread (Video.views v) (PartialVideo.views p);
     Video.completed := spread_opt (Video.completed v) (PartialVideo.completed p);
     Video.status := spread (Video.status v) (PartialVideo.status p);
     Video.thumbnailUrl := spread (Video.thumbnailUrl v) (PartialVideo.thumbnailUrl p);
     Video.videoUrls := spread (Video.videoUrls v) (PartialVideo.videoUrls p);
     Video.tags := spread_opt (Video.tags v) (PartialVideo.tags p);
     Video.uploadedAt := spread (Video.uploadedAt v) (PartialVideo.uploadedAt p) |}.

(** [const { password, ...userWithoutPassword } = user] *)
Definition userWithoutPassword (u : User) : User :=
  {| User.id := User.id u; User.name := User.name u; User.email := User.email u;
     User.password := None;
     User.type := User.type u; User.class := User.class u;
     User.status := User.status u |}.

(** [video.status = status] and [video.tags = newTags], [{ ...video, completed }] *)
Definition set_status (s : VideoStatus) (v : Video) : Video :=
  {| Video.id := Video.id v; Video.title := Video.title v;
     Video.description := Video.description v; Video.subject := Video.subject v;
     Video.class := Video.class v; Video.duration := Video.duration v;
     Video.views := Video.views v; Video.completed := Video.completed v;
     Video.status := s;
     Video.thumbnailUrl := Video.thumbnailUrl v; Video.videoUrls := Video.videoUrls v;
     Video.tags := Video.tags v; Video.uploadedAt := Video.uploadedAt v |}.

Definition set_tags (ts : list string) (v : Video) : Video :=
  {| Video.id := Video.id v; Video.title := Video.title v;
     Video.description := Video.description v; Video.subject := Video.subject v;
     Video.class := Video.class v; Video.duration := Video.duration v;
     Video.views := Video.views v; Video.completed := Video.completed v;
     Video.status := Video.status v;
     Video.thumbnailUrl := Video.thumbnailUrl v; Video.videoUrls := Video.videoUrls v;
     Video.tags := Some ts; Video.uploadedAt := Video.uploadedAt v |}.

Definition set_completed (c : bool) (v : Video) : Video :=
  {| Video.id := Video.id v; Video.title := Video.title v;
     Video.description := Video.description v; Video.subject := Video.subject v;
     Video.class := Video.class v; Video.duration := Video.duration v;
     Video.views := Video.views v; Video.completed := Some c;
     Video.status := Video.status v;
     Video.thumbnailUrl := Video.thumbnailUrl v; Video.videoUrls := Video.videoUrls v;
     Video.tags := Video.tags v; Video.uploadedAt := Video.uploadedAt v |}.

(** [user.password = newPass] *)
Definition set_password (p : string) (u : User) : User :=
  {| User.id := User.id u; User.name := User.name u; User.email := User.email u;
     User.password := Some p;
     User.type := User.type u; User.class := User.class u;
     User.status := User.status u |}.

(** [String.prototype.toLowerCase] on a string whose cased letters are all
    among A to Z, as the emails of the sample data are.  The functions of
    [db.ts] below take [toLowerCase] as a parameter: nothing they do depends
    on which letters it lowers. *)
Definition lower_ascii (c : Ascii.ascii) : Ascii.ascii :=
  let n := Ascii.N_of_ascii c in
  if ((65 <=? n) && (n <=? 90))%N then Ascii.ascii_of_N (n + 32) else c.

Fixpoint ASCII_toLowerCase (s : string) : string :=
  match s with
  | EmptyString => EmptyString
  | String c s' => String (lower_ascii c) (ASCII_toLowerCase s')
  end.

(** [JSON.parse(JSON.stringify(n))] on a number, and on a [VideoProgress]. *)
Definition JSON_number (n : number) : number :=
  match n with
  | finite x => finite x
  | NaN | Infinity | minus_Infinity | null_number => null_number
  end.

Definition JSON_progress (p : VideoProgress) : VideoProgress :=
  {| VideoProgress.progress := JSON_number (VideoProgress.progress p);
     VideoProgress.duration := JSON_number (VideoProgress.duration p) |}.

(** [obj[key] = value] on a plain object, for a [value] that is an object.
    The key [__proto__] names the prototype, unless the object has a
    property of its own under that name (as [JSON.parse] creates one):
    the assignment then replaces the prototype and adds no property. *)
Definition Object_set {V} (key : string) (value : V) (obj : gmap string V)
  : gmap string V :=
  if bool_decide (key = "__proto__" ∧ obj !! key = None) then obj
  else <[key := value]> obj.

(** [[...new Set(l)]]: the distinct elements of [l], each at the place of its
    first occurrence. *)
Definition Set_push (seen : list string) (x : string) : list string :=
  if bool_decide (x ∈ seen) then seen else seen ++ [x].

Definition Set_of (l : list string) : list string := foldl Set_push [] l.

(** [Array.prototype.sort(compareFn)].  The sort is stable: when
    [compareFn] is a consistent comparator for the elements of the array,
    the result is [stable_sort], whatever algorithm the engine runs. *)
Section stable_sort.
Context {A : Type} (compareFn : A → A → Z).

Fixpoint sort_insert (x : A) (l : list A) : list A :=
    match l with
    | [] => [x]
    | y :: l' => if compareFn x y <=? 0 then x :: y :: l' else y :: sort_insert x l'
    end.

Definition stable_sort (l : list A) : list A := foldr sort_insert [] l.
End stable_sort.

(** A consistent comparator for the elements of [l], as ECMAScript defines
    it: on them [compareFn] never returns NaN (here [None]), every element
    is equal to itself, equality is symmetric, and equality, less and
    greater are transitive. *)
Section consistent.
Context {A : Type} (compareFn : A → A → option Z).

Definition consistent_at (a b c : A) : Prop :=
  match compareFn a a, compareFn a b, compareFn b a, compareFn b c, compareFn a c with
  | Some aa, Some ab, Some ba, Some bc, Some ac =>
      aa = 0 ∧ (ab = 0 → ba = 0) ∧ (ab = 0 → bc = 0 → ac = 0) ∧
      (ab < 0 → bc < 0 → ac < 0) ∧ (0 < ab → 0 < bc → 0 < ac)
  | _, _, _, _, _ => False
  end.

Definition consistent (l : list A) : Prop :=
  Forall (λ a, Forall (λ b, Forall (consistent_at a b) l) l) l.

#[global] Instance consistent_at_dec a b c : Decision (consistent_at a b c).
Proof.
  unfold consistent_at.
  destruct (compareFn a a), (compareFn a b), (compareFn b a), (compareFn b c),
    (compareFn a c); apply _.
Defined.

#[global] Instance consistent_dec l : Decision (consistent l).
Proof. unfold consistent. apply _. Defined.
End consistent.

(* ===================================================================== *)
(** ** localStorage *)
(* ===================================================================== *)

(** A JSON value that is not of the shape under which a key is read: [null],
    a boolean, a number, a string, or a compound of the other kind (an object
    where an array is read, an array where an object is read). *)
Inductive misfit :=
  | MNull | MBool (b : bool) | MNumber (n : Z) | MString (s : string) | MCompound.

Inductive jsval (A : Type) :=
  | Shaped (a : A)
  | Misshapen (m : misfit).
Arguments Shaped {A} a.
Arguments Misshapen {A} m.

Inductive item (A : Type) :=
  | Text (raw : string)     (* a string that [JSON.parse] rejects *)
  | Doc (v : jsval A).      (* the text of the JSON value [v] *)
Arguments Text {A} raw.
Arguments Doc {A} v.

Universe key_payload.

(** The keys this module uses, with the type each is read at:
    [USERS_KEY], [VIDEOS_KEY], [getCompletionsKey(userId)] and
    [getProgressKey(userId)].  The four families of strings are disjoint. *)
Inductive key : Type@{key_payload} → Type@{key_payload+1} :=
  | USERS_KEY : key (list User)
  | VIDEOS_KEY : key (list Video)
  | getCompletionsKey (userId : string) : key (list string)
  | getProgressKey (userId : string) : key UserProgress.

Record Storage := mkStorage {
  eduportal_users : option (item (list User));
  eduportal_videos : option (item (list Video));
  eduportal_completions : gmap string (item (list string));
  eduportal_progress : gmap string (item UserProgress) }.

Definition getItem {A} (k : key A) (ls : Storage) : option (item A) :=
  match k in key A return option (item A) with
  | USERS_KEY => eduportal_users ls
  | VIDEOS_KEY => eduportal_videos ls
  | getCompletionsKey userId => eduportal_completions ls !! userId
  | getProgressKey userId => eduportal_progress ls !! userId
  end.

Definition setItem {A} (k : key A) : item A → Storage → Storage :=
  match k in key A return item A → Storage → Storage with
  | USERS_KEY => λ it ls,
      mkStorage (Some it) (eduportal_videos ls)
                (eduportal_completions ls) (eduportal_progress ls)
  | VIDEOS_KEY => λ it ls,
      mkStorage (eduportal_users ls) (Some it)
                (eduportal_completions ls) (eduportal_progress ls)
  | getCompletionsKey userId => λ it ls,
      mkStorage (eduportal_users ls) (eduportal_videos ls)
                (<[userId := it]> (eduportal_completions ls)) (eduportal_progress ls)
  | getProgressKey userId => λ it ls,
      mkStorage (eduportal_users ls) (eduportal_videos ls)
                (eduportal_completions ls) (<[userId := it]> (eduportal_progress ls))
  end.

Definition removeItem {A} (k : key A) (ls : Storage) : Storage :=
  match k with
  | USERS_KEY =>
      mkStorage None (eduportal_videos ls)
                (eduportal_completions ls) (eduportal_progress ls)
  | VIDEOS_KEY =>
      mkStorage (eduportal_users ls) None
                (eduportal_completions ls) (eduportal_progress ls)
  | getCompletionsKey userId =>
      mkStorage (eduportal_users ls) (eduportal_videos ls)
                (delete userId (eduportal_completions ls)) (eduportal_progress ls)
  | getProgressKey userId =>
      mkStorage (eduportal_users ls) (eduportal_videos ls)
                (eduportal_completions ls) (delete userId (eduportal_progress ls))
  end.

(** Truthiness of what [getItem] returns: [null] and the empty string are
    falsy. *)
Definition truthy {A} (i : option (item A)) : bool :=
  match i with
  | None => false
  | Some (Text raw) => negb (bool_decide (raw = EmptyString))
  | Some (Doc _) => true
  end.

(** [JSON.parse]: [None] is the [SyntaxError]. *)
Definition JSON_parse {A} (it : item A) : option (jsval A) :=
  match it with
  | Text _ => None
  | Doc v => Some v
  end.

(** What [JSON.parse] reads back from what [JSON.stringify] wrote.  Of the
    values this module stores only the progress maps hold numbers. *)
Definition JSON_roundtrip {A} (k : key A) : A → A :=
  match k in key A return A → A with
  | getProgressKey _ => fmap JSON_progress
  | _ => id
  end.

(** [JSON.stringify], of a value stored under [k] *)
Definition JSON_stringify {A} (k : key A) (value : A) : item A :=
  Doc (Shaped (JSON_roundtrip k value)).

(** [getFromStorage]: the stored value when there is one that parses, the
    default otherwise; it never writes. *)
Definition getFromStorage {A} (k : key A) (defaultValue : A) (ls : Storage) : jsval A :=
  match getItem k ls with
  | Some it =>
      if truthy (Some it) then
        match JSON_parse it with
        | Some v => v
        | None => Shaped defaultValue          (* catch (error) *)
        end
      else Shaped defaultValue
  | None => Shaped defaultValue
  end.

Definition saveToStorage {A} (k : key A) (value : A) (ls : Storage) : Storage :=
  setItem k (JSON_stringify k value) ls.
Arguments saveToStorage : simpl never.

(* ===================================================================== *)
(** ** The IndexedDB object store [videos] *)
(* ===================================================================== *)

Abbreviation ObjectStore := (gmap string Video).

Inductive request :=
  | Put (v : Video)
  | Add (v : Video)
  | Delete (k : string)
  | Clear.

(** One request against the contents of the store; [None] is a request that
    fails ([add] of a key already present raises a [ConstraintError]). *)
Definition perform (m : ObjectStore) (r : request) : option ObjectStore :=
  match r with
  | Put v => Some (<[Video.id v := v]> m)
  | Add v => match m !! Video.id v with
             | Some _ => None
             | None => Some (<[Video.id v := v]> m)
             end
  | Delete k => Some (delete k m)
  | Clear => Some ∅
  end.

Fixpoint perform_all (m : ObjectStore) (rs : list request) : option ObjectStore :=
  match rs with
  | [] => Some m
  | r :: rs' => match perform m r with
                | Some m' => perform_all m' rs'
                | None => None
                end
  end.

(** What becomes of a transaction in the browser: it [Commits], or one of
    its requests fails there, the error reaches the [onerror] handlers of
    the request and of the transaction, and the transaction [Aborts]. *)
Inductive fate := Commits | Aborts.

(** What a promise is rejected with: a [DOMException], by its name, or
    [null].  [transaction.error] is [null] as long as the transaction has
    not aborted, also inside the [onerror] handler of the transaction, which
    runs while the error event of the failed request bubbles. *)
Inductive error := ConstraintError | AbortError | TransactionInactiveError | null.

Inductive promise (A : Type) :=
  | Resolved (a : A)
  | Rejected (e : error).
Arguments Resolved {A} a.
Arguments Rejected {A} e.

(** A [readwrite] transaction: the requests queued on it take effect
    together when it completes; a failed request, or an abort, leaves the
    store as it was. *)
Definition transaction (tx : fate) (rs : list request) (m : ObjectStore)
  : promise unit * ObjectStore :=
  match perform_all m rs with
  | Some m' => match tx with
               | Commits => (Resolved (), m')
               | Aborts => (Rejected AbortError, m)
               end
  | None => (Rejected ConstraintError, m)
  end.

(** A promise that is awaited: it [Settles], or nothing ever resolves or
    rejects it. *)
Inductive awaited (A : Type) :=
  | Settles (p : promise A)
  | NeverSettles.
Arguments Settles {A} p.
Arguments NeverSettles {A}.

(** The lifetime of a transaction.  A transaction is active in the task
    that created it.  When that task gives the control back to the event
    loop, the requests queued on the transaction run; with none pending it
    commits, and it is finished from then on: a request on its store throws
    a [TransactionInactiveError], and a handler that is set on it afterwards
    is never called.  An [await] of a promise that an event of another
    request settles gives the control back. *)
Record IDBTransaction := mkTransaction {
  is_active : bool;
  queue : list request }.

(** [database.transaction(VIDEO_STORE_NAME, 'readwrite')] *)
Definition new_transaction : IDBTransaction := mkTransaction true [].

(** [store.put(video)] on the store of the transaction; [None] is the
    exception. *)
Definition store_put (video : Video) (t : IDBTransaction) : option IDBTransaction :=
  if is_active t then Some (mkTransaction true (queue t ++ [Put video])) else None.

(** The control goes back to the event loop. *)
Definition end_of_task (t : IDBTransaction) (m : ObjectStore)
  : IDBTransaction * ObjectStore :=
  if is_active t then (mkTransaction false [], (transaction Commits (queue t) m).2)
  else (t, m).

(** [new Promise((resolve, reject) => { transaction.oncomplete = () =>
    resolve(); transaction.onerror = () => reject(transaction.error); })] *)
Definition completion (t : IDBTransaction) (m : ObjectStore)
  : awaited unit * ObjectStore :=
  if is_active t then
    match transaction Commits (queue t) m with
    | (Resolved _, m') => (Settles (Resolved ()), m')
    | (Rejected _, _) => (Settles (Rejected null), m)
    end
  else (NeverSettles, m).

(** [store.getAll()]: the records in ascending order of their keys. *)
Definition key_le (a b : string * Video) : Prop := String.leb a.1 b.1.

Definition getAll (m : ObjectStore) : list Video :=
  (merge_sort key_le (map_to_list m)).*2.

(** [store.count()] *)
Definition count (m : ObjectStore) : nat := size m.

(** The state of the page: the module variable [db] (is the handle set?),
    the object store and [localStorage]. *)
Record state := mkState {
  db : bool;
  videos : ObjectStore;
  localStorage : Storage }.

(** [openDB]: the cached handle, or a fresh one; the upgrade creates the
    object store when the database is new, which leaves it empty. *)
Definition openDB (s : state) : state :=
  if db s then s else mkState true (videos s) (localStorage s).

Definition with_videos (m : ObjectStore) (s : state) : state :=
  mkState (db s) m (localStorage s).

Definition with_localStorage (ls : Storage) (s : state) : state :=
  mkState (db s) (videos s) ls.

(* ===================================================================== *)
(** ** services/db.ts *)
(* ===================================================================== *)

Section db.

Set Default Proof Using "Type".

(** [String.prototype.toLowerCase]: the string with every cased letter, of
    any alphabet, replaced by its lowercase form. *)
Variable toLowerCase : string → string.

(** The predicates of [find], [some] and [findIndex] over the user table:
    [u.email.toLowerCase() === email.toLowerCase()] and [u.id === userId]. *)
Definition same_email (email : string) (u : User) : Prop :=
  toLowerCase (User.email u) = toLowerCase email.

Definition has_id (userId : string) (u : User) : Prop := User.id u = userId.

#[global] Instance same_email_dec email u : Decision (same_email email u).
Proof. unfold same_email. apply _. Defined.

#[global] Instance has_id_dec userId u : Decision (has_id userId u).
Proof. unfold has_id. apply _. Defined.

(** [import { initialUsers, initialVideos } from './initialData']: the seed
    data.  When [getUsers] hands out [initialUsers] itself, a [push] or an
    assignment on what it returned also changes the imported array for the
    rest of the session; each function below gives the result and the stores
    of one call, and that later change is not followed. *)
Variable initialUsers : list User.
Variable initialVideos : list Video.

(** [new Date(s).getTime()]: the date in milliseconds, or NaN, here
    [None], when the string is not a date. *)
Variable Date_getTime : string → option Z.

(** What the engine makes of an array when [compareFn] is not a consistent
    comparator for its elements: ECMAScript leaves the order to the
    implementation. *)
Variable implementation_defined :
  (Video → Video → option Z) → list Video → list Video.

(** [array.sort(compareFn)]: a NaN from [compareFn] counts as +0; whatever
    the engine does, the array keeps its elements. *)
Definition Array_sort (compareFn : Video → Video → option Z) (l : list Video)
  : list Video :=
  if bool_decide (consistent compareFn l)
  then stable_sort (λ x y, default 0 (compareFn x y)) l
  else
    let sorted := implementation_defined compareFn l in
    if bool_decide (sorted ≡ₚ l) then sorted else l.

(** *** DB initialization *)

(** What a run of the migration wrote to the console. *)
Inductive migration :=
  | NothingToMigrate        (* the legacy item is falsy *)
  | MigrationSuccessful     (* records copied, legacy key removed *)
  | LegacyCleared           (* not an array, or an empty one: key removed *)
  | FailedToMigrate.        (* an exception was caught *)

Definition migrateLocalStorageToIndexedDB (s : state) : migration * state :=
  let lsVideosItem := getItem VIDEOS_KEY (localStorage s) in
  match lsVideosItem with
  | Some it =>
      if truthy lsVideosItem then
        match JSON_parse it with
        | None => (FailedToMigrate, s)
        | Some (Shaped ((_ :: _) as lsVideos)) =>
            let s := openDB s in
            match transaction Commits (Put <$> lsVideos) (videos s) with
            | (Resolved _, m) =>
                (MigrationSuccessful,
                 with_localStorage (removeItem VIDEOS_KEY (localStorage s))
                                   (with_videos m s))
            | (Rejected _, _) => (FailedToMigrate, s)
            end
        | Some _ =>
            (LegacyCleared,
             with_localStorage (removeItem VIDEOS_KEY (localStorage s)) s)
        end
      else (NothingToMigrate, s)
  | None => (NothingToMigrate, s)
  end.

Definition initDB (s : state) : state :=
  let s := openDB s in
  let s :=
    if negb (truthy (getItem USERS_KEY (localStorage s)))
    then with_localStorage (saveToStorage USERS_KEY initialUsers (localStorage s)) s
    else s in
  if (count (videos s) =? 0)%nat then
    let s := (migrateLocalStorageToIndexedDB s).2 in
    if (count (videos s) =? 0)%nat then
      with_videos (transaction Commits (Add <$> initialVideos) (videos s)).2 s
    else s
  else (migrateLocalStorageToIndexedDB s).2.

(** *** User management *)

Definition getUsers (ls : Storage) : list User * Storage :=
  match getFromStorage USERS_KEY [] ls with
  | Misshapen _ =>                       (* !Array.isArray(users) *)
      (initialUsers, saveToStorage USERS_KEY initialUsers ls)
  | Shaped users => (users, ls)
  end.

Definition authenticateUser (email password_sent : string) (ls : Storage)
  : option User * Storage :=
  let '(users, ls) := getUsers ls in
  match list_find (same_email email) users with
  | Some (_, user) =>
      if bool_decide (User.password user = Some password_sent)
      then (Some (userWithoutPassword user), ls)
      else (None, ls)
  | None => (None, ls)
  end.

(** [now] is the value of [Date.now()] during the call. *)
Definition newUser (now : Z) (userData : UserData) : User :=
  {| User.id := "user_" +:+ pretty now;
     User.name := UserData.name userData;
     User.email := UserData.email userData;
     User.password := UserData.password userData;
     User.type := student;
     User.class := UserData.class userData;
     User.status := active |}.

Definition registerStudent (now : Z) (userData : UserData) (ls : Storage)
  : option User * Storage :=
  let '(users, ls) := getUsers ls in
  if bool_decide (Exists (same_email (UserData.email userData)) users) then (None, ls)
  else
    let newUser := newUser now userData in
    let users := users ++ [newUser] in
    (Some (userWithoutPassword newUser), saveToStorage USERS_KEY users ls).

Definition updateUserProfile (userId : string) (updatedData : PartialUser) (ls : Storage)
  : option User * Storage :=
  let '(users, ls) := getUsers ls in
  match list_find (has_id userId) users with
  | None => (None, ls)                    (* userIndex === -1 *)
  | Some (userIndex, user) =>
      let users := <[userIndex := spread_user user updatedData]> users in
      (userWithoutPassword <$> users !! userIndex, saveToStorage USERS_KEY users ls)
  end.

Definition changePassword (userId oldPass newPass : string) (ls : Storage)
  : bool * Storage :=
  let '(users, ls) := getUsers ls in
  match list_find (has_id userId) users with
  | Some (i, user) =>
      if bool_decide (User.password user = Some oldPass) then
        let users := <[i := set_password newPass user]> users in
        (true, saveToStorage USERS_KEY users ls)
      else (false, ls)
  | None => (false, ls)
  end.

Definition deleteUser (userId : string) (ls : Storage) : Storage :=
  let '(users, ls) := getUsers ls in
  let users := filter (λ u, User.id u ≠ userId) users in
  saveToStorage USERS_KEY users ls.

(** *** Video management *)

Definition getRawVideos (s : state) : promise (list Video) * state :=
  let s := openDB s in
  (Resolved (getAll (videos s)), s).

(** [new Date(b.uploadedAt).getTime() - new Date(a.uploadedAt).getTime()],
    which is NaN when one of the two is. *)
Definition by_upload_desc (a b : Video) : option Z :=
  match Date_getTime (Video.uploadedAt b), Date_getTime (Video.uploadedAt a) with
  | Some tb, Some ta => Some (tb - ta)
  | _, _ => None
  end.

(** The completion list read in [getVideos]: a value that is not an array is
    replaced by [[]], which is saved. *)
Definition read_completions (userId : string) (ls : Storage) : list string * Storage :=
  match getFromStorage (getCompletionsKey userId) [] ls with
  | Misshapen _ => ([], saveToStorage (getCompletionsKey userId) [] ls)
  | Shaped completedVideoIds => (completedVideoIds, ls)
  end.

(** [userId] is [None] when the argument is left out; an empty string is
    falsy as well. *)
Definition getVideos (userId : option string) (s : state)
  : promise (list Video) * state :=
  match getRawVideos s with
  | (Rejected e, s) => (Rejected e, s)
  | (Resolved allVideos, s) =>
      let allVideos := Array_sort by_upload_desc allVideos in
      match userId with
      | None => (Resolved allVideos, s)
      | Some userId =>
          if bool_decide (userId = EmptyString) then (Resolved allVideos, s)
          else
            let '(completedVideoIds, ls) := read_completions userId (localStorage s) in
            (Resolved ((λ video,
                          set_completed
                            (bool_decide (Video.id video ∈ completedVideoIds)) video)
                         <$> allVideos),
             with_localStorage ls s)
      end
  end.

Definition newVideo (now : Z) (videoData : VideoData) : Video :=
  {| Video.id := "video_" +:+ pretty now;
     Video.title := VideoData.title videoData;
     Video.description := VideoData.description videoData;
     Video.subject := VideoData.subject videoData;
     Video.class := VideoData.class videoData;
     Video.duration := VideoData.duration videoData;
     Video.views := VideoData.views videoData;
     Video.completed := VideoData.completed videoData;
     Video.status := VideoData.status videoData;
     Video.thumbnailUrl := VideoData.thumbnailUrl videoData;
     Video.videoUrls := VideoData.videoUrls videoData;
     Video.tags := VideoData.tags videoData;
     Video.uploadedAt := VideoData.uploadedAt videoData |}.

Definition addVideo (now : Z) (videoData : VideoData) (s : state)
  : promise Video * state :=
  let s := openDB s in
  let newVideo := newVideo now videoData in
  match transaction Commits [Add newVideo] (videos s) with
  | (Resolved _, m) => (Resolved newVideo, with_videos m s)
  | (Rejected e, _) => (Rejected e, s)
  end.

Definition updateVideo (videoId : string) (updatedData : PartialVideo) (s : state)
  : promise (option Video) * state :=
  let s := openDB s in
  match videos s !! videoId with           (* store.get(videoId) *)
  | None => (Resolved None, s)             (* resolve(null) *)
  | Some video =>
      let updatedVideo := spread_video video updatedData in
      match transaction Commits [Put updatedVideo] (videos s) with
      | (Resolved _, m) => (Resolved (Some updatedVideo), with_videos m s)
      | (Rejected e, _) => (Rejected e, s)
      end
  end.

Definition deleteVideo (videoId : string) (s : state) : promise unit * state :=
  let s := openDB s in
  match transaction Commits [Delete videoId] (videos s) with
  | (Resolved _, m) => (Resolved (), with_videos m s)
  | (Rejected e, _) => (Rejected e, s)
  end.

Definition updateVideoCompletion (userId videoId : string) (isCompleted : bool)
    (ls : Storage) : Storage :=
  let completionsKey := getCompletionsKey userId in
  let completedVideoIds :=
    match getFromStorage completionsKey [] ls with
    | Misshapen _ => []
    | Shaped completedVideoIds => completedVideoIds
    end in
  let completedVideoIds :=
    if isCompleted then
      if bool_decide (videoId ∈ completedVideoIds) then completedVideoIds
      else completedVideoIds ++ [videoId]
    else filter (λ id, id ≠ videoId) completedVideoIds in
  saveToStorage completionsKey completedVideoIds ls.

(** *** Batch operations

    Each opens one [readwrite] transaction.  [deleteMultipleVideos] queues
    its requests in the task that opened it; [tx] is what becomes of that
    transaction. *)

Definition deleteMultipleVideos (tx : fate) (videoIds : list string) (s : state)
  : promise unit * state :=
  let s := openDB s in
  match transaction tx (Delete <$> videoIds) (videos s) with
  | (Resolved _, m) => (Resolved (), with_videos m s)
  | (Rejected e, _) => (Rejected e, s)
  end.

(** The two other batches [await getRawVideos()] between the opening of the
    transaction and their requests: the transaction, with nothing queued,
    has committed when they come to it.

    The body of [videoIds.forEach]: [videos] is the array read by
    [getRawVideos]; the record found in it is changed in place and put; an
    id that is not found does nothing.  [None] is an exception, which ends
    the loop. *)
Definition forEach_id (change : Video → Video)
    (acc : option (list Video * IDBTransaction)) (id : string)
  : option (list Video * IDBTransaction) :=
  match acc with
  | None => None
  | Some (videos, t) =>
      match list_find (λ v, Video.id v = id) videos with
      | Some (i, video) =>
          let video := change video in
          match store_put video t with
          | Some t => Some (<[i := video]> videos, t)
          | None => None
          end
      | None => Some (videos, t)
      end
  end.

Definition batch_update (change : Video → Video)
    (videoIds : list string) (s : state) : awaited unit * state :=
  let s := openDB s in
  let transaction := new_transaction in
  (* [await getRawVideos()]: the control goes back to the event loop *)
  let '(transaction, m) := end_of_task transaction (videos s) in
  let s := with_videos m s in
  match getRawVideos s with
  | (Rejected e, s) => (Settles (Rejected e), s)
  | (Resolved videos0, s) =>
      match foldl (forEach_id change) (Some (videos0, transaction)) videoIds with
      | None => (Settles (Rejected TransactionInactiveError), s)
      | Some (_, transaction) =>
          let '(p, m) := completion transaction (videos s) in
          (p, with_videos m s)
      end
  end.

Definition updateMultipleVideosStatus (videoIds : list string)
    (status : VideoStatus) (s : state) : awaited unit * state :=
  batch_update (set_status status) videoIds s.

Definition add_tags (tagsToAdd : list string) (video : Video) : Video :=
  let existingTags := default [] (Video.tags video) in
  let newTags := Set_of (existingTags ++ tagsToAdd) in
  set_tags newTags video.

Definition addTagsToMultipleVideos (videoIds tagsToAdd : list string)
    (s : state) : awaited unit * state :=
  batch_update (add_tags tagsToAdd) videoIds s.

(** *** Progress tracking *)

Definition getProgressForUser (userId : string) (ls : Storage)
  : UserProgress * Storage :=
  match getFromStorage (getProgressKey userId) ∅ ls with
  | Misshapen _ =>       (* not an object, null, or an array *)
      (∅, saveToStorage (getProgressKey userId) ∅ ls)
  | Shaped progress => (progress, ls)
  end.

(** *** Admin *)

(** The requests are queued in the task that opened the transaction.  When
    an [add] fails, its error event reaches [transaction.onerror] before the
    transaction aborts: [reject(transaction.error)] rejects with [null]. *)
Definition resetVideos (s : state) : promise unit * state :=
  let s := openDB s in
  match transaction Commits (Clear :: (Add <$> initialVideos)) (videos s) with
  | (Resolved _, m) => (Resolved (), with_videos m s)
  | (Rejected _, _) => (Rejected null, s)
  end.

(** *** The rest of the progress functions *)

Definition stored_completions (userId : string) (ls : Storage) : list string :=
  match getFromStorage (getCompletionsKey userId) [] ls with
  | Misshapen _ => []                    (* Array.isArray(completions) ? ... : [] *)
  | Shaped completions => completions
  end.



Definition updateVideoProgress (userId videoId : string) (progress duration : number)
    (ls : Storage) : Storage :=
  let progressKey := getProgressKey userId in
  let '(userProgress, ls) := getProgressForUser userId ls in
  let userProgress :=
    Object_set videoId {| VideoProgress.progress := progress;
                          VideoProgress.duration := duration |} userProgress in
  saveToStorage progressKey userProgress ls.

(* ===================================================================== *)
(** ** hooks/useVideos.tsx, hooks/useProgress.tsx, hooks/useAuth.tsx

    A hook function is a function of the React state it closes over and of
    the stores; a state setter called with an updater is applied to that
    state. *)
(* ===================================================================== *)

(** [toggleVideoCompletion] of [useVideos]: [user] is the logged-in user,
    [videos] the list on screen. *)
Definition toggleVideoCompletion (user : option User) (videos : list Video)
    (videoId : string) (ls : Storage) : list Video * Storage :=
  match user with
  | None => (videos, ls)
  | Some user =>
      match list_find (λ v, Video.id v = videoId) videos with
      | None => (videos, ls)
      | Some (_, video) =>
          let newCompletedStatus := negb (default false (Video.completed video)) in
          let ls := updateVideoCompletion (User.id user) videoId newCompletedStatus ls in
          ((λ v, if bool_decide (Video.id v = videoId)
                 then set_completed newCompletedStatus v else v) <$> videos,
           ls)
      end
  end.

(** [updateProgress] of [useProgress]: [progress] is the map on screen; a
    computed key in an object literal always makes a property of the new
    object. *)
Definition updateProgress (user : option User) (progress : UserProgress)
    (videoId : string) (newProgress duration : number) (ls : Storage)
  : UserProgress * Storage :=
  match user with
  | None => (progress, ls)
  | Some user =>
      (<[videoId := {| VideoProgress.progress := newProgress;
                       VideoProgress.duration := duration |}]> progress,
       updateVideoProgress (User.id user) videoId newProgress duration ls)
  end.

(** The state of [AuthProvider]: the [user] of [useState] and the item
    [srividyabharathi_user] of [sessionStorage]. *)
Record Auth := mkAuth {
  auth_user : option User;
  srividyabharathi_user : option User }.

Inductive thrown := Returned | Threw (message : string).

Definition login (email password : string) (a : Auth) (ls : Storage)
  : thrown * Auth * Storage :=
  match authenticateUser email password ls with
  | (Some foundUser, ls) => (Returned, mkAuth (Some foundUser) (Some foundUser), ls)
  | (None, ls) => (Threw "Invalid credentials", a, ls)
  end.

Definition register (now : Z) (userData : UserData) (a : Auth) (ls : Storage)
  : thrown * Auth * Storage :=
  match registerStudent now userData ls with
  | (Some newUser, ls) => (Returned, mkAuth (Some newUser) (Some newUser), ls)
  | (None, ls) => (Threw "Email already exists", a, ls)
  end.

Definition logout (a : Auth) : Auth := mkAuth None None.

Definition updateProfile (updatedData : PartialUser) (a : Auth) (ls : Storage)
  : thrown * Auth * Storage :=
  match auth_user a with
  | None => (Threw "No user is logged in", a, ls)
  | Some user =>
      match updateUserProfile (User.id user) updatedData ls with
      | (Some updatedUser, ls) =>
          (Returned, mkAuth (Some updatedUser) (Some updatedUser), ls)
      | (None, ls) => (Threw "Failed to update profile", a, ls)
      end
  end.

(** [updateUser] and [deleteUser] of [useUsers]: [users] is the list on
    screen, first read with [getUsers]. *)
Definition updateUser (users : list User) (userId : string) (data : PartialUser)
    (ls : Storage) : list User * Storage :=
  match updateUserProfile userId data ls with
  | (Some updatedUser, ls) =>
      ((λ u, if bool_decide (User.id u = userId) then updatedUser else u) <$> users,
       ls)
  | (None, ls) => (users, ls)
  end.

Definition useUsers_deleteUser (users : list User) (userId : string) (ls : Storage)
  : list User * Storage :=
  (filter (λ u, User.id u ≠ userId) users, deleteUser userId ls).

(* ===================================================================== *)
(** ** Vocabulary of the properties *)
(* ===================================================================== *)

Definition email_key (u : User) : string := toLowerCase (User.email u).

(** The emails of the table are pairwise distinct, letter case put aside:
    no two of them have the same [toLowerCase]. *)
Definition unique_emails (users : list User) : Prop := NoDup (email_key <$> users).

(** The store after a series of [put]s. *)
Definition put_all (m : ObjectStore) (l : list Video) : ObjectStore :=
  foldl (λ m v, <[Video.id v := v]> m) m l.

(** The legacy key holds no document: it is absent, or holds a string that
    does not parse. *)
Definition legacy_inert (ls : Storage) : Prop :=
  ∀ v, getItem VIDEOS_KEY ls ≠ Some (Doc v).

(** The state in which [initDB] counts the records: the handle is set and
    the users are seeded when there is no users item. *)
Definition after_users_seed (s : state) : state :=
  let s := openDB s in
  if negb (truthy (getItem USERS_KEY (localStorage s)))
  then with_localStorage (saveToStorage USERS_KEY initialUsers (localStorage s)) s
  else s.

(** The seeding of an empty store. *)
Definition seed (m : ObjectStore) : ObjectStore :=
  (transaction Commits (Add <$> initialVideos) m).2.

(** The states in which [initDB] has nothing left to do. *)
Definition settled (s : state) : Prop :=
  db s = true ∧
  truthy (getItem USERS_KEY (localStorage s)) = true ∧
  legacy_inert (localStorage s) ∧
  (videos s = ∅ → seed ∅ = ∅).

(** The upload time of a record, [None] when its [uploadedAt] is not a
    date. *)
Definition upload_time (v : Video) : option Z := Date_getTime (Video.uploadedAt v).

(** Latest upload first, among the records that have an upload time. *)
Definition newest_first (a b : Video) : Prop :=
  ∀ ta tb, upload_time a = Some ta → upload_time b = Some tb → tb <= ta.

(** Every [uploadedAt] of the store is a date. *)
Definition dated (m : ObjectStore) : Prop :=
  ∀ k v, m !! k = Some v → is_Some (upload_time v).

(** The store is keyed by the [id] of its records. *)
Definition keyed (m : ObjectStore) : Prop :=
  ∀ k v, m !! k = Some v → Video.id v = k.

(** [videos.find(v => v.id === id)] *)
Definition find_id (k : string) (vs : list Video) : option Video :=
  snd <$> list_find (λ v, Video.id v = k) vs.
Arguments find_id : simpl never.

(** The [completed] flags on screen are those of the stored completion list
    of the user. *)
Definition flags_agree (userId : string) (videos : list Video) (ls : Storage) : Prop :=
  ∀ v, v ∈ videos →
       Video.completed v
       = Some (bool_decide (Video.id v ∈ stored_completions userId ls)).

(** The session item is the user of the state, without a password. *)
Definition session_clean (a : Auth) : Prop :=
  srividyabharathi_user a = auth_user a ∧
  ∀ u, srividyabharathi_user a = Some u → User.password u = None.

(** The calls that write the user table. *)
Inductive user_operation :=
  | RegisterStudent (now : Z) (userData : UserData)
  | ChangePassword (userId oldPass newPass : string)
  | DeleteUser (userId : string)
  | UpdateUserProfile (userId : string) (updatedData : PartialUser).

Definition run_operation (ls : Storage) (op : user_operation) : Storage :=
  match op with
  | RegisterStudent now userData => (registerStudent now userData ls).2
  | ChangePassword userId oldPass newPass => (changePassword userId oldPass newPass ls).2
  | DeleteUser userId => deleteUser userId ls
  | UpdateUserProfile userId updatedData => (updateUserProfile userId updatedData ls).2
  end.

(** The call sends no email: every call but a profile update with an
    [email] in the patch. *)
Definition sends_no_email (op : user_operation) : Prop :=
  match op with
  | UpdateUserProfile _ updatedData => PartialUser.email updatedData = None
  | _ => True
  end.

(** *** Sample data *)

Definition alice : User :=
  {| User.id := "1"; User.name := "Alice"; User.email := "alice@school.org";
     User.password := Some "pw-a"; User.type := student;
     User.class := Some class8; User.status := active |}.

Definition bob : User :=
  {| User.id := "2"; User.name := "Bob"; User.email := "bob@school.org";
     User.password := Some "pw-b"; User.type := student;
     User.class := Some class9; User.status := disabled |}.

Definition carol : UserData :=
  {| UserData.name := "Carol"; UserData.email := "carol@school.org";
     UserData.password := Some "pw-c"; UserData.class := Some class10 |}.

(** [{ email: 'Alice@School.org' }] *)
Definition email_patch : PartialUser :=
  {| PartialUser.id := None; PartialUser.name := None;
     PartialUser.email := Some "Alice@School.org";
     PartialUser.password := None; PartialUser.type := None;
     PartialUser.class := None; PartialUser.status := None |}.

Definition lesson (id uploadedAt : string) : Video :=
  {| Video.id := id; Video.title := "Fractions"; Video.description := "A first lesson";
     Video.subject := Mathematics; Video.class := class8;
     Video.duration := "24:15"; Video.views := 0; Video.completed := None;
     Video.status := draft; Video.thumbnailUrl := "fractions.png"; Video.videoUrls := ∅;
     Video.tags := None; Video.uploadedAt := uploadedAt |}.

(** [{ title: 'Decimals' }] *)
Definition title_patch : PartialVideo :=
  {| PartialVideo.id := None; PartialVideo.title := Some "Decimals";
     PartialVideo.description := None; PartialVideo.subject := None;
     PartialVideo.class := None; PartialVideo.duration := None;
     PartialVideo.views := None; PartialVideo.completed := None;
     PartialVideo.status := None; PartialVideo.thumbnailUrl := None;
     PartialVideo.videoUrls := None; PartialVideo.tags := None;
     PartialVideo.uploadedAt := None |}.

(** [{ id: 'v9' }] *)
Definition id_patch : PartialVideo :=
  {| PartialVideo.id := Some "v9"; PartialVideo.title := None;
     PartialVideo.description := None; PartialVideo.subject := None;
     PartialVideo.class := None; PartialVideo.duration := None;
     PartialVideo.views := None; PartialVideo.completed := None;
     PartialVideo.status := None; PartialVideo.thumbnailUrl := None;
     PartialVideo.videoUrls := None; PartialVideo.tags := None;
     PartialVideo.uploadedAt := None |}.

(** [{ password: 'pw-new' }] *)
Definition password_patch : PartialUser :=
  {| PartialUser.id := None; PartialUser.name := None;
     PartialUser.email := None;
     PartialUser.password := Some "pw-new"; PartialUser.type := None;
     PartialUser.class := None; PartialUser.status := None |}.

(** What the upload form sends. *)
Definition upload : VideoData :=
  {| VideoData.title := "Algebra"; VideoData.description := "Equations";
     VideoData.subject := Mathematics; VideoData.class := class9;
     VideoData.duration := "10:00"; VideoData.views := 0;
     VideoData.completed := None; VideoData.status := draft;
     VideoData.thumbnailUrl := "algebra.png"; VideoData.videoUrls := ∅;
     VideoData.tags := None; VideoData.uploadedAt := "2024-03-01" |}.

(** 12.5 and 120 seconds. *)
Definition twelve_and_a_half : number :=
  finite (Qcanon.Q2Qc (QArith_base.Qmake 25 2)).

Definition two_minutes : number := finite (Qc_of_Z 120).

Definition empty_storage : Storage := mkStorage None None ∅ ∅.

Definition storage_of (users : list User) : Storage :=
  setItem USERS_KEY (Doc (Shaped users)) empty_storage.

(** A page on which nothing has run yet. *)
Definition fresh : state := mkState false ∅ empty_storage.

Definition catalog : ObjectStore :=
  <["v2" := lesson "v2" "2024-02-01"]> (<["v1" := lesson "v1" "2024-01-01"]> ∅).

(** [new Date(s).getTime()] on the dates of the sample data; any other
    string is taken not to be a date. *)
Definition sample_time (uploadedAt : string) : option Z :=
  if bool_decide (uploadedAt = "2024-01-01") then Some 1704067200000
  else if bool_decide (uploadedAt = "2024-02-01") then Some 1706745600000
  else if bool_decide (uploadedAt = "2024-03-01") then Some 1709251200000
  else None.

(** An engine that leaves the array as it is when [compareFn] is not
    consistent. *)
Definition left_in_place (compareFn : Video → Video → option Z) (l : list Video)
  : list Video := l.

(* ===================================================================== *)
(** ** Properties *)
(* ===================================================================== *)

(** *** Reading and writing [localStorage] *)

Lemma getItem_setItem {A} (k : key A) (it : item A) ls :
  getItem k (setItem k it ls) = Some it.
Proof. destruct k; simpl; try reflexivity; apply lookup_insert_eq. Qed.

Lemma setItem_getItem {A} (k : key A) (it : item A) ls :
  getItem k ls = Some it → setItem k it ls = ls.
Proof.
  destruct ls as [us vs cs ps]; destruct k; simpl; intros H; f_equal;
    try done; now apply insert_id.
Qed.

Lemma setItem_setItem {A} (k : key A) (it1 it2 : item A) ls :
  setItem k it2 (setItem k it1 ls) = setItem k it2 ls.
Proof. destruct k; simpl; f_equal; apply insert_insert_eq. Qed.

Lemma getFromStorage_Doc {A} (k : key A) (d : A) (v : jsval A) ls :
  getItem k ls = Some (Doc v) → getFromStorage k d ls = v.
Proof. unfold getFromStorage. now intros ->. Qed.

Lemma getFromStorage_Text {A} (k : key A) (d : A) raw ls :
  getItem k ls = Some (Text raw) → getFromStorage k d ls = Shaped d.
Proof. unfold getFromStorage. intros ->. simpl. now destruct (negb _). Qed.

Lemma getFromStorage_None {A} (k : key A) (d : A) ls :
  getItem k ls = None → getFromStorage k d ls = Shaped d.
Proof. unfold getFromStorage. now intros ->. Qed.

(** *** Completions *)

Lemma filter_ne_NoDup (videoId : string) (ids : list string) :
  NoDup ids → NoDup (filter (λ id, id ≠ videoId) ids).
Proof. apply NoDup_filter. Qed.

(** C10.  On a stored completion list without duplicates,
    [updateVideoCompletion(userId, videoId, true)] leaves the storage as it
    is when [videoId] is already in the list, and in any case stores the list
    itself or the list with [videoId] appended once;
    [updateVideoCompletion(userId, videoId, false)] stores the list without
    any occurrence of [videoId]; both stored lists are free of duplicates. *)
Theorem updateVideoCompletion_NoDup userId videoId (ids : list string) ls :
  getItem (getCompletionsKey userId) ls = Some (Doc (Shaped ids)) →
  NoDup ids →
  (videoId ∈ ids → updateVideoCompletion userId videoId true ls = ls) ∧
  (∃ ids1,
      (getItem (getCompletionsKey userId) (updateVideoCompletion userId videoId true ls)
        = Some (Doc (Shaped ids1))) ∧
      NoDup ids1 ∧ videoId ∈ ids1 ∧
      (ids1 = ids ∨ ((videoId ∉ ids) ∧ ids1 = ids ++ [videoId]))) ∧
  (∃ ids0,
      (getItem (getCompletionsKey userId) (updateVideoCompletion userId videoId false ls)
        = Some (Doc (Shaped ids0))) ∧
      NoDup ids0 ∧ (videoId ∉ ids0) ∧
      ∀ id, id ∈ ids0 ↔ id ∈ ids ∧ id ≠ videoId).
Proof.
  intros Hget Hnd.
  unfold updateVideoCompletion.
  rewrite (getFromStorage_Doc _ _ _ _ Hget).
  split; [|split].
  - intros Hin. rewrite bool_decide_eq_true_2 by done.
    now apply setItem_getItem.
  - case_bool_decide as Hin.
    + exists ids. unfold saveToStorage. rewrite getItem_setItem. auto.
    + exists (ids ++ [videoId]). unfold saveToStorage. rewrite getItem_setItem.
      repeat split; auto.
      * apply NoDup_app. repeat split; auto using NoDup_singleton.
        intros x Hx ->%list_elem_of_singleton. done.
      * apply elem_of_app. right. now apply list_elem_of_singleton.
  - exists (filter (λ id, id ≠ videoId) ids).
    unfold saveToStorage. rewrite getItem_setItem.
    split; [done|]. split; [by apply filter_ne_NoDup|].
    split; [intros [? _]%list_elem_of_filter; done|].
    intros id. rewrite list_elem_of_filter. split; intros [? ?]; done.
Qed.

(** *** The user table *)

Lemma getUsers_stored users ls :
  getItem USERS_KEY ls = Some (Doc (Shaped users)) → getUsers ls = (users, ls).
Proof. intros H. unfold getUsers. now rewrite (getFromStorage_Doc _ _ _ _ H). Qed.

Lemma getUsers_saved users ls :
  getUsers (saveToStorage USERS_KEY users ls) = (users, saveToStorage USERS_KEY users ls).
Proof. apply getUsers_stored. apply (getItem_setItem USERS_KEY). Qed.

(** What [getUsers] leaves in the storage reads back as what it returned. *)
Lemma getUsers_again ls : getUsers (getUsers ls).2 = getUsers ls.
Proof.
  unfold getUsers at 2 3.
  destruct (getItem USERS_KEY ls) as [[raw|[users|m]]|] eqn:E.
  - rewrite (getFromStorage_Text _ _ _ _ E). simpl.
    unfold getUsers. now rewrite (getFromStorage_Text _ _ _ _ E).
  - rewrite (getFromStorage_Doc _ _ _ _ E). simpl. now apply getUsers_stored.
  - rewrite (getFromStorage_Doc _ _ _ _ E). simpl. apply getUsers_saved.
  - rewrite (getFromStorage_None _ _ _ E). simpl.
    unfold getUsers. now rewrite (getFromStorage_None _ _ _ E).
Qed.

(** The storage is touched by [getUsers] only when it holds a document that
    is not an array. *)
Lemma getUsers_reads_only ls :
  (∀ m, getItem USERS_KEY ls ≠ Some (Doc (Misshapen m))) → (getUsers ls).2 = ls.
Proof.
  intros H. unfold getUsers.
  destruct (getItem USERS_KEY ls) as [[raw|[users|m]]|] eqn:E.
  - now rewrite (getFromStorage_Text _ _ _ _ E).
  - now rewrite (getFromStorage_Doc _ _ _ _ E).
  - now destruct (H m).
  - now rewrite (getFromStorage_None _ _ _ E).
Qed.

(** C7.  A user returned by [authenticateUser] or by [registerStudent] has
    no [password] field, while the record of the stored table it was made
    from keeps the password: the one that was sent, respectively the one
    given at registration. *)
Theorem returned_user_has_no_password email password_sent now userData ls :
  (∀ u ls',
      authenticateUser email password_sent ls = (Some u, ls') →
      User.password u = None ∧
      ∃ stored, stored ∈ (getUsers ls').1 ∧
                User.password stored = Some password_sent ∧
                u = userWithoutPassword stored) ∧
  (∀ u ls',
      registerStudent now userData ls = (Some u, ls') →
      User.password u = None ∧
      ∃ stored, stored ∈ (getUsers ls').1 ∧
                User.password stored = UserData.password userData ∧
                u = userWithoutPassword stored).
Proof.
  split; intros u ls'.
  - unfold authenticateUser.
    pose proof (getUsers_again ls) as Hagain.
    destruct (getUsers ls) as [users ls0]; simpl in Hagain.
    destruct (list_find _ users) as [[i user]|] eqn:Hfind; [|discriminate].
    case_bool_decide as Hpw; [|discriminate].
    intros [= <- <-]. split; [done|].
    exists user. rewrite Hagain. simpl.
    apply list_find_Some in Hfind as (Hi & _ & _).
    eauto using list_elem_of_lookup_2.
  - unfold registerStudent.
    destruct (getUsers ls) as [users ls0].
    case_bool_decide; [discriminate|].
    intros [= <- <-]. split; [done|].
    exists (newUser now userData). erewrite getUsers_stored by reflexivity. simpl.
    split; [|done]. apply elem_of_app. right. now apply list_elem_of_singleton.
Qed.

(** The first user of the table with a given email, in any letter case,
    logs in with its password, whatever its [status]. *)
Lemma authenticateUser_first ls i u email p :
  list_find (same_email email) (getUsers ls).1 = Some (i, u) →
  User.password u = Some p →
  authenticateUser email p ls = (Some (userWithoutPassword u), (getUsers ls).2).
Proof.
  intros Hfind Hpw. unfold authenticateUser.
  destruct (getUsers ls) as [users ls0]; simpl in *.
  rewrite Hfind. now rewrite bool_decide_eq_true_2.
Qed.

Lemma same_email_lower email1 email2 u :
  toLowerCase email1 = toLowerCase email2 →
  same_email email1 u ↔ same_email email2 u.
Proof. unfold same_email. now intros ->. Qed.

(** C9 (as amended).  [authenticateUser] does not look at [status]: a stored
    user that is [disabled] and is the first user of the table with its
    email is returned, without the password, when its email is given in any
    letter case (an email with the same [toLowerCase], whatever letters
    [toLowerCase] lowers) together with its password. *)
Theorem authenticateUser_ignores_status ls i u email p :
  list_find (same_email (User.email u)) (getUsers ls).1 = Some (i, u) →
  User.status u = disabled →
  User.password u = Some p →
  toLowerCase email = toLowerCase (User.email u) →
  (authenticateUser email p ls).1 = Some (userWithoutPassword u) ∧
  User.status (userWithoutPassword u) = disabled ∧
  User.password (userWithoutPassword u) = None.
Proof.
  intros Hfind Hst Hpw Hcase.
  rewrite (authenticateUser_first ls i u email p); [done| |done].
  rewrite <- Hfind. apply list_find_ext. intros x.
  now apply same_email_lower.
Qed.

(** *** Case-insensitive uniqueness of emails *)

Lemma Exists_same_email email users :
  Exists (same_email email) users ↔ toLowerCase email ∈ email_key <$> users.
Proof.
  rewrite Exists_exists, list_elem_of_fmap. unfold same_email, email_key.
  split; intros (u & H1 & H2); exists u; auto.
Qed.

Lemma unique_emails_snoc users u :
  unique_emails users → ¬ Exists (same_email (User.email u)) users →
  unique_emails (users ++ [u]).
Proof.
  unfold unique_emails. intros Hnd Hex. rewrite fmap_app. simpl.
  apply NoDup_app. split; [done|]. split; [|apply NoDup_singleton].
  intros k Hk ->%list_elem_of_singleton. apply Hex.
  now apply Exists_same_email.
Qed.

Lemma unique_emails_insert users i u u' :
  users !! i = Some u → User.email u' = User.email u →
  unique_emails users → unique_emails (<[i := u']> users).
Proof.
  unfold unique_emails. intros Hi He Hnd.
  rewrite list_fmap_insert. rewrite list_insert_id; [done|].
  rewrite list_lookup_fmap, Hi. simpl. unfold email_key. now rewrite He.
Qed.

Lemma unique_emails_filter (P : User → Prop) `{∀ u, Decision (P u)} users :
  unique_emails users → unique_emails (filter P users).
Proof.
  unfold unique_emails. intros Hnd. apply (sublist_NoDup _ _ Hnd), fmap_sublist, sublist_filter.
Qed.

(** A registration with an email that is already in the table, in any letter
    case, fails and writes nothing. *)
Lemma registerStudent_duplicate now userData users ls :
  getItem USERS_KEY ls = Some (Doc (Shaped users)) →
  toLowerCase (UserData.email userData) ∈ email_key <$> users →
  registerStudent now userData ls = (None, ls).
Proof.
  intros Hst Hdup. unfold registerStudent. rewrite (getUsers_stored _ _ Hst).
  rewrite bool_decide_eq_true_2; [done|]. now apply Exists_same_email.
Qed.

(** The operations that keep the emails pairwise distinct: registration, a
    change of password, a deletion, and a profile update that does not carry
    an email. *)
Lemma unique_emails_preserved now userData userId oldPass newPass updatedData ls :
  unique_emails (getUsers ls).1 →
  unique_emails (getUsers (registerStudent now userData ls).2).1 ∧
  unique_emails (getUsers (changePassword userId oldPass newPass ls).2).1 ∧
  unique_emails (getUsers (deleteUser userId ls)).1 ∧
  (PartialUser.email updatedData = None →
   unique_emails (getUsers (updateUserProfile userId updatedData ls).2).1).
Proof.
  intros Huniq.
  pose proof (getUsers_again ls) as Hagain.
  unfold registerStudent, changePassword, deleteUser, updateUserProfile.
  destruct (getUsers ls) as [users ls0]; simpl in *.
  repeat split.
  - case_bool_decide as Hex; simpl.
    + now rewrite Hagain.
    + rewrite ?getUsers_saved; simpl. now apply unique_emails_snoc.
  - destruct (list_find _ users) as [[i user]|] eqn:Hfind; simpl;
      [|now rewrite Hagain].
    case_bool_decide; simpl; [|now rewrite Hagain].
    rewrite ?getUsers_saved; simpl.
    apply list_find_Some in Hfind as (Hi & _ & _).
    now apply (unique_emails_insert users i user).
  - rewrite ?getUsers_saved; simpl. now apply unique_emails_filter.
  - intros Hpatch.
    destruct (list_find _ users) as [[i user]|] eqn:Hfind; simpl;
      [|now rewrite Hagain].
    rewrite ?getUsers_saved; simpl.
    apply list_find_Some in Hfind as (Hi & _ & _).
    apply (unique_emails_insert users i user); [done| |done].
    simpl. now rewrite Hpatch.
Qed.

(** Under uniqueness every stored user is the first with its email. *)
Lemma unique_emails_first users u :
  unique_emails users → u ∈ users →
  ∃ i, list_find (same_email (User.email u)) users = Some (i, u).
Proof.
  unfold unique_emails. intros Hnd [i Hi]%list_elem_of_lookup_1.
  exists i. apply list_find_Some. split; [done|]. split; [done|].
  intros j y Hj Hlt Hsame.
  assert (i = j); [|lia].
  apply (NoDup_lookup _ i j (email_key u) Hnd).
  - now rewrite list_lookup_fmap, Hi.
  - rewrite list_lookup_fmap, Hj. simpl. now f_equal.
Qed.

(** *** Mutations of a record that does not exist *)

Lemma openDB_openDB s : openDB (openDB s) = openDB s.
Proof. unfold openDB. destruct s as [[] m ls]; reflexivity. Qed.

Lemma videos_openDB s : videos (openDB s) = videos s.
Proof. unfold openDB. now destruct (db s). Qed.

Lemma localStorage_openDB s : localStorage (openDB s) = localStorage s.
Proof. unfold openDB. now destruct (db s). Qed.

(** C8 (as amended).  A mutation of an id that does not exist does not
    throw: [updateVideo] resolves to [null] and [updateUserProfile] returns
    [null]; the object store and the storage are left as they were, the user
    table being read through [getUsers]. *)
Theorem update_of_missing_id_returns_null videoId updatedData s userId userPatch ls :
  videos s !! videoId = None →
  (∀ u, u ∈ (getUsers ls).1 → User.id u ≠ userId) →
  updateVideo videoId updatedData s = (Resolved None, openDB s) ∧
  videos (openDB s) = videos s ∧
  localStorage (openDB s) = localStorage s ∧
  updateUserProfile userId userPatch ls = (None, (getUsers ls).2) ∧
  getUsers (getUsers ls).2 = getUsers ls ∧
  ((∀ m, getItem USERS_KEY ls ≠ Some (Doc (Misshapen m))) → (getUsers ls).2 = ls).
Proof.
  intros Hv Hu.
  split; [|split; [apply videos_openDB|split; [apply localStorage_openDB|]]].
  - unfold updateVideo. now rewrite videos_openDB, Hv.
  - split; [|split; [apply getUsers_again|apply getUsers_reads_only]].
    unfold updateUserProfile.
    destruct (getUsers ls) as [users ls0]; simpl in *.
    destruct (list_find _ users) as [[i user]|] eqn:Hfind; [|done].
    apply list_find_Some in Hfind as (Hi & Hid & _).
    destruct (Hu user); eauto using list_elem_of_lookup_2.
Qed.

(** *** Malformed values in the storage *)

Lemma getFromStorage_setItem_Doc {A} (k : key A) (d : A) v ls :
  getFromStorage k d (setItem k (Doc v) ls) = v.
Proof. apply getFromStorage_Doc, getItem_setItem. Qed.

Lemma getFromStorage_setItem_Text {A} (k : key A) (d : A) raw ls :
  getFromStorage k d (setItem k (Text raw) ls) = Shaped d.
Proof. apply (getFromStorage_Text _ _ raw), getItem_setItem. Qed.

Lemma saveToStorage_setItem {A} (k : key A) (a : A) it ls :
  saveToStorage k a (setItem k it ls)
  = setItem k (Doc (Shaped (JSON_roundtrip k a))) ls.
Proof. unfold saveToStorage, JSON_stringify. apply setItem_setItem. Qed.

Lemma not_completed (allVideos : list Video) :
  (λ video, set_completed (bool_decide (Video.id video ∈ @nil string)) video)
    <$> allVideos
  = set_completed false <$> allVideos.
Proof.
  apply list_fmap_ext. intros _ video _.
  rewrite bool_decide_eq_false_2; [done|]. apply not_elem_of_nil.
Qed.

(** C2 (as amended).  After a value of the wrong shape [m] has been written
    under a key, the read returns the value the key is reset to and the
    storage holds that value: [initialUsers] for the users, [{}] for a
    progress map, [[]] for the completions read in [getVideos].  After a
    string [raw] that does not parse has been written, the read returns the
    default of [getFromStorage] ([[]], [{}], [[]]) and the storage still
    holds [raw]. *)
Theorem malformed_values_are_healed (m : misfit) (raw userId : string)
    (handle : bool) (catalog : ObjectStore) (ls : Storage) :
  userId ≠ EmptyString →
  let listed := set_completed false <$> Array_sort by_upload_desc (getAll catalog) in
  getUsers (setItem USERS_KEY (Doc (Misshapen m)) ls)
    = (initialUsers, setItem USERS_KEY (Doc (Shaped initialUsers)) ls) ∧
  getUsers (setItem USERS_KEY (Text raw) ls)
    = ([], setItem USERS_KEY (Text raw) ls) ∧
  getProgressForUser userId (setItem (getProgressKey userId) (Doc (Misshapen m)) ls)
    = (∅, setItem (getProgressKey userId) (Doc (Shaped ∅)) ls) ∧
  getProgressForUser userId (setItem (getProgressKey userId) (Text raw) ls)
    = (∅, setItem (getProgressKey userId) (Text raw) ls) ∧
  getVideos (Some userId)
      (mkState handle catalog (setItem (getCompletionsKey userId) (Doc (Misshapen m)) ls))
    = (Resolved listed,
       mkState true catalog (setItem (getCompletionsKey userId) (Doc (Shaped [])) ls)) ∧
  getVideos (Some userId)
      (mkState handle catalog (setItem (getCompletionsKey userId) (Text raw) ls))
    = (Resolved listed,
       mkState true catalog (setItem (getCompletionsKey userId) (Text raw) ls)).
Proof.
  intros Hid listed.
  repeat apply conj.
  - unfold getUsers.
    now rewrite getFromStorage_setItem_Doc, saveToStorage_setItem.
  - unfold getUsers. now rewrite getFromStorage_setItem_Text.
  - unfold getProgressForUser.
    rewrite getFromStorage_setItem_Doc, saveToStorage_setItem.
    cbn [JSON_roundtrip]. now rewrite fmap_empty.
  - unfold getProgressForUser. now rewrite getFromStorage_setItem_Text.
  - unfold getVideos, getRawVideos.
    rewrite bool_decide_eq_false_2 by done.
    unfold read_completions.
    replace (localStorage (openDB _)) with
      (setItem (getCompletionsKey userId) (Doc (Misshapen m)) ls)
      by now destruct handle.
    rewrite getFromStorage_setItem_Doc, saveToStorage_setItem, not_completed.
    now destruct handle.
  - unfold getVideos, getRawVideos.
    rewrite bool_decide_eq_false_2 by done.
    unfold read_completions.
    replace (localStorage (openDB _)) with
      (setItem (getCompletionsKey userId) (Text raw) ls)
      by now destruct handle.
    rewrite getFromStorage_setItem_Text, not_completed.
    now destruct handle.
Qed.

(** *** Operations before [initDB] *)

(** C4 (as amended).  No operation checks that [initDB] has run: each one
    opens the database itself, so in any state, the handle being set or not,
    it does what it does once the handle is set.  [getVideos], [updateVideo]
    and [deleteVideo] resolve, and [addVideo] resolves unless the id it
    generates is already a key of the store; the handle is set afterwards. *)
Theorem operations_open_the_database userId now videoData videoId updatedData s :
  getVideos userId s = getVideos userId (openDB s) ∧
  addVideo now videoData s = addVideo now videoData (openDB s) ∧
  updateVideo videoId updatedData s = updateVideo videoId updatedData (openDB s) ∧
  deleteVideo videoId s = deleteVideo videoId (openDB s) ∧
  (∃ l, (getVideos userId s).1 = Resolved l) ∧
  (videos s !! Video.id (newVideo now videoData) = None →
   (addVideo now videoData s).1 = Resolved (newVideo now videoData)) ∧
  (∃ r, (updateVideo videoId updatedData s).1 = Resolved r) ∧
  (deleteVideo videoId s).1 = Resolved () ∧
  db (getVideos userId s).2 = true ∧
  db (addVideo now videoData s).2 = true ∧
  db (updateVideo videoId updatedData s).2 = true ∧
  db (deleteVideo videoId s).2 = true.
Proof.
  unfold getVideos, getRawVideos, addVideo, updateVideo, deleteVideo, transaction.
  rewrite !openDB_openDB.
  assert (Hdb : db (openDB s) = true) by (unfold openDB; now destruct s as [[] ? ?]).
  repeat apply conj; try reflexivity.
  - destruct userId as [userId|]; [|eauto].
    case_bool_decide; [eauto|].
    destruct (read_completions _ _); eauto.
  - simpl. rewrite videos_openDB. now intros ->.
  - destruct (videos (openDB s) !! videoId); simpl; eauto.
  - destruct userId as [userId|]; [|done].
    case_bool_decide; [done|].
    now destruct (read_completions _ _).
  - simpl. now destruct (videos (openDB s) !! _).
  - now destruct (videos (openDB s) !! videoId).
  - done.
Qed.

(** *** The order of the listing *)

Lemma sort_insert_Permutation {A} (cmp : A → A → Z) x l :
  sort_insert cmp x l ≡ₚ x :: l.
Proof.
  induction l as [|y l IH]; simpl; [done|].
  destruct (cmp x y <=? 0); [done|].
  rewrite IH. apply Permutation_swap.
Qed.

Lemma stable_sort_Permutation {A} (cmp : A → A → Z) l : stable_sort cmp l ≡ₚ l.
Proof.
  induction l as [|x l IH]; simpl; [done|].
  now rewrite sort_insert_Permutation, IH.
Qed.

(** Whatever the comparator, the array keeps its elements. *)
Lemma Array_sort_Permutation compareFn l : Array_sort compareFn l ≡ₚ l.
Proof.
  unfold Array_sort. case_bool_decide; [apply stable_sort_Permutation|].
  cbv zeta. now case_bool_decide.
Qed.

(** Inserting keeps, among the elements that a predicate selects, the order
    in which they were, provided the comparison never calls two selected
    elements out of order. *)
Lemma sort_insert_filter {A} (cmp : A → A → Z) (P : A → Prop)
    `{∀ a, Decision (P a)} x l :
  (∀ a b, P a → P b → cmp a b <= 0) →
  filter P (sort_insert cmp x l) = filter P (x :: l).
Proof.
  intros Hties. induction l as [|y l IH]; simpl; [done|].
  destruct (cmp x y <=? 0) eqn:Hcmp; [done|].
  rewrite (filter_cons P y), IH, !(filter_cons P).
  destruct (decide (P x)) as [Hx|]; [|done].
  destruct (decide (P y)) as [Hy|]; [|done].
  apply Z.leb_gt in Hcmp. specialize (Hties x y Hx Hy). lia.
Qed.

Lemma stable_sort_filter {A} (cmp : A → A → Z) (P : A → Prop)
    `{∀ a, Decision (P a)} l :
  (∀ a b, P a → P b → cmp a b <= 0) →
  filter P (stable_sort cmp l) = filter P l.
Proof.
  intros Hties. induction l as [|x l IH]; simpl; [done|].
  rewrite sort_insert_filter by done.
  now rewrite !(filter_cons P), IH.
Qed.

(** The sort only compares elements of the array. *)
Lemma sort_insert_ext {A} (cmp cmp' : A → A → Z) x l :
  (∀ y, y ∈ l → cmp x y = cmp' x y) →
  sort_insert cmp x l = sort_insert cmp' x l.
Proof.
  induction l as [|y l IH]; intros Hext; simpl; [done|].
  rewrite (Hext y) by (apply elem_of_cons; now left).
  destruct (cmp' x y <=? 0); [done|].
  f_equal. apply IH. intros z Hz. apply Hext, elem_of_cons. now right.
Qed.

Lemma stable_sort_ext {A} (cmp cmp' : A → A → Z) l :
  (∀ x y, x ∈ l → y ∈ l → cmp x y = cmp' x y) →
  stable_sort cmp l = stable_sort cmp' l.
Proof.
  induction l as [|x l IH]; intros Hext; simpl; [done|].
  rewrite IH by (intros y z Hy Hz; apply Hext; apply elem_of_cons; now right).
  apply sort_insert_ext. intros y Hy. rewrite stable_sort_Permutation in Hy.
  apply Hext; apply elem_of_cons; [now left|now right].
Qed.

(** Sorting by a key in descending order. *)
Lemma sort_insert_desc {A} (key : A → Z) x l :
  StronglySorted (λ a b, key b <= key a) l →
  StronglySorted (λ a b, key b <= key a) (sort_insert (λ a b, key b - key a) x l).
Proof.
  induction 1 as [|y l Hl IH Hy]; simpl.
  - repeat constructor.
  - destruct (_ <=? 0) eqn:Hcmp.
    + apply Z.leb_le in Hcmp.
      constructor; [now constructor|].
      constructor; [lia|].
      eapply Forall_impl; [exact Hy|]. intros z Hz. simpl in *. lia.
    + apply Z.leb_gt in Hcmp.
      constructor; [done|].
      rewrite sort_insert_Permutation.
      constructor; [lia|done].
Qed.

Lemma stable_sort_desc {A} (key : A → Z) l :
  StronglySorted (λ a b, key b <= key a) (stable_sort (λ a b, key b - key a) l).
Proof.
  induction l as [|x l IH]; simpl; [constructor|].
  now apply sort_insert_desc.
Qed.

Lemma StronglySorted_impl {A} (R R' : A → A → Prop) l :
  (∀ a b, R a b → R' a b) → StronglySorted R l → StronglySorted R' l.
Proof.
  intros Himpl. induction 1 as [|x l Hl IH Hx]; constructor; [done|].
  eapply Forall_impl; [exact Hx|]. intros y. apply Himpl.
Qed.

(** When every upload date is a date, [by_upload_desc] is the difference of
    the upload times and a consistent comparator: the listing is the stable
    sort by upload time. *)
Lemma by_upload_desc_dated a b :
  is_Some (upload_time a) → is_Some (upload_time b) →
  by_upload_desc a b
  = Some (default 0 (upload_time b) - default 0 (upload_time a)).
Proof.
  unfold upload_time, by_upload_desc. intros [ta ->] [tb ->]. done.
Qed.

Lemma by_upload_desc_consistent l :
  Forall (λ v, is_Some (upload_time v)) l → consistent by_upload_desc l.
Proof.
  intros Hdated. unfold consistent.
  apply Forall_forall. intros a Ha. apply Forall_forall. intros b Hb.
  apply Forall_forall. intros c Hc.
  rewrite Forall_forall in Hdated.
  unfold consistent_at.
  rewrite !by_upload_desc_dated by auto. lia.
Qed.

Lemma Array_sort_dated l :
  Forall (λ v, is_Some (upload_time v)) l →
  Array_sort by_upload_desc l
  = stable_sort (λ a b, default 0 (upload_time b) - default 0 (upload_time a)) l.
Proof.
  intros Hdated. unfold Array_sort.
  rewrite bool_decide_eq_true_2 by now apply by_upload_desc_consistent.
  apply stable_sort_ext. intros x y Hx Hy.
  rewrite Forall_forall in Hdated. now rewrite by_upload_desc_dated by auto.
Qed.

Lemma elem_of_getAll (m : ObjectStore) v :
  v ∈ getAll m ↔ ∃ k, m !! k = Some v.
Proof.
  unfold getAll. rewrite merge_sort_Permutation.
  rewrite list_elem_of_fmap. split.
  - intros ([k v'] & -> & Hin). exists k. now apply elem_of_map_to_list.
  - intros [k Hk]. exists (k, v). split; [done|]. now apply elem_of_map_to_list.
Qed.

(** C6 (as amended).  When every [uploadedAt] of the store is a date,
    [getVideos] resolves to the records of the store, each exactly as often
    as [getAll] yields it, latest [uploadedAt] first, and records with the
    same upload time come in the order in which the store yields them; with
    a [userId] the same list is returned with the [completed] flags set. *)
Theorem getVideos_newest_first_stable userId s :
  dated (videos s) →
  ∃ l : list Video,
    l ≡ₚ getAll (videos s) ∧
    (∀ v, v ∈ l ↔ ∃ k, videos s !! k = Some v) ∧
    StronglySorted newest_first l ∧
    (∀ t, filter (λ v, upload_time v = t) l
          = filter (λ v, upload_time v = t) (getAll (videos s))) ∧
    (getVideos None s).1 = Resolved l ∧
    ∃ flag : Video → Video,
      (∀ v, flag v = v ∨ ∃ b, flag v = set_completed b v) ∧
      (getVideos userId s).1 = Resolved (flag <$> l).
Proof.
  intros Hdated.
  assert (Hall : Forall (λ v, is_Some (upload_time v)) (getAll (videos s))).
  { apply Forall_forall. intros v [k Hk]%elem_of_getAll. exact (Hdated k v Hk). }
  exists (Array_sort by_upload_desc (getAll (videos s))).
  split; [apply Array_sort_Permutation|].
  split; [intros v; rewrite Array_sort_Permutation; apply elem_of_getAll|].
  split.
  { rewrite (Array_sort_dated _ Hall).
    eapply StronglySorted_impl; [|apply (stable_sort_desc (λ v, default 0 (upload_time v)))].
    intros a b Hab ta tb Hta Htb. cbv beta in Hab.
    rewrite Hta, Htb in Hab. exact Hab. }
  split.
  { intros t. rewrite (Array_sort_dated _ Hall). apply stable_sort_filter.
    intros a b -> Hb. rewrite Hb. lia. }
  unfold getVideos, getRawVideos. rewrite videos_openDB.
  split; [done|].
  destruct userId as [userId|]; simpl.
  - case_bool_decide.
    + exists id. split; [auto|]. now rewrite list_fmap_id.
    + destruct (read_completions _ _) as [completedVideoIds ls].
      eexists. split; [|reflexivity]. intros v. right. eauto.
  - exists id. split; [auto|]. now rewrite list_fmap_id.
Qed.

(** *** Startup *)

Lemma perform_all_Put m l : perform_all m (Put <$> l) = Some (put_all m l).
Proof. revert m. induction l as [|v l IH]; intros m; simpl; [done|apply IH]. Qed.

Lemma put_all_non_empty m l : m ≠ ∅ ∨ l ≠ [] → put_all m l ≠ ∅.
Proof.
  revert m. induction l as [|v l IH]; intros m; simpl.
  - now intros [?|?].
  - intros _. apply IH. left. apply insert_non_empty.
Qed.

Lemma count_0 (m : ObjectStore) : (count m =? 0)%nat = true ↔ m = ∅.
Proof. unfold count. rewrite Nat.eqb_eq. apply map_size_empty_iff. Qed.

Lemma migrate_cases s :
  match getItem VIDEOS_KEY (localStorage s) with
  | Some (Doc (Shaped (v :: l))) =>
      migrateLocalStorageToIndexedDB s
      = (MigrationSuccessful,
         mkState true (put_all (videos s) (v :: l))
                 (removeItem VIDEOS_KEY (localStorage s)))
  | Some (Doc _) =>
      migrateLocalStorageToIndexedDB s
      = (LegacyCleared,
         mkState (db s) (videos s) (removeItem VIDEOS_KEY (localStorage s)))
  | Some (Text raw) =>
      migrateLocalStorageToIndexedDB s
      = (if bool_decide (raw = EmptyString) then NothingToMigrate else FailedToMigrate, s)
  | None => migrateLocalStorageToIndexedDB s = (NothingToMigrate, s)
  end.
Proof.
  unfold migrateLocalStorageToIndexedDB.
  destruct (getItem VIDEOS_KEY (localStorage s)) as [[raw|[[|v l]|m]]|]; try done.
  - simpl. now case_bool_decide.
  - unfold truthy, JSON_parse, transaction.
    rewrite perform_all_Put, videos_openDB, localStorage_openDB.
    unfold with_localStorage, with_videos. simpl.
    replace (db (openDB s)) with true by (now destruct s as [[] ? ?]).
    reflexivity.
Qed.

Lemma migrate_inert s :
  legacy_inert (localStorage s) → (migrateLocalStorageToIndexedDB s).2 = s.
Proof.
  intros Hin. pose proof (migrate_cases s) as H.
  destruct (getItem VIDEOS_KEY (localStorage s)) as [[raw|v]|] eqn:E.
  - now rewrite H.
  - now destruct (Hin v).
  - now rewrite H.
Qed.

Lemma migrate_leaves_inert s :
  legacy_inert (localStorage (migrateLocalStorageToIndexedDB s).2).
Proof.
  pose proof (migrate_cases s) as H. unfold legacy_inert.
  destruct (getItem VIDEOS_KEY (localStorage s)) as [[raw|[[|v l]|m]]|] eqn:E;
    rewrite H; simpl in *; try done; rewrite E; done.
Qed.

Lemma migrate_keeps s :
  let s' := (migrateLocalStorageToIndexedDB s).2 in
  (db s = true → db s' = true) ∧
  getItem USERS_KEY (localStorage s') = getItem USERS_KEY (localStorage s) ∧
  (videos s ≠ ∅ → videos s' ≠ ∅).
Proof.
  pose proof (migrate_cases s) as H.
  destruct (getItem VIDEOS_KEY (localStorage s)) as [[raw|[[|v l]|m]]|] eqn:E;
    rewrite H; simpl; try done.
  repeat split. intros _. apply (put_all_non_empty _ (v :: l)). now right.
Qed.

(** A run of the migration that does not fail leaves the legacy key absent,
    or holding the empty string it held. *)
Lemma migrate_completed s :
  (migrateLocalStorageToIndexedDB s).1 ≠ FailedToMigrate →
  truthy (getItem VIDEOS_KEY (localStorage (migrateLocalStorageToIndexedDB s).2)) = false.
Proof.
  pose proof (migrate_cases s) as H.
  destruct (getItem VIDEOS_KEY (localStorage s)) as [[raw|[[|v l]|m]]|] eqn:E;
    rewrite H; simpl in *; try done; rewrite ?E; try done.
  case_bool_decide as Hraw; [|done]. intros _. simpl.
  now rewrite bool_decide_eq_true_2.
Qed.

Lemma initDB_settled s : settled (initDB s).
Proof.
  unfold initDB.
  set (s0 := openDB s).
  set (s1 := if negb (truthy (getItem USERS_KEY (localStorage s0)))
             then with_localStorage (saveToStorage USERS_KEY initialUsers (localStorage s0)) s0
             else s0).
  assert (Hdb : db s1 = true).
  { subst s1 s0. unfold openDB. destruct (negb _); now destruct s as [[] ? ?]. }
  assert (Hus : truthy (getItem USERS_KEY (localStorage s1)) = true).
  { subst s1. destruct (truthy (getItem USERS_KEY (localStorage s0))) eqn:E; [done|].
    simpl. reflexivity. }
  clearbody s1. clear s0.
  pose proof (migrate_keeps s1) as (Hdb' & Hus' & Hne).
  pose proof (migrate_leaves_inert s1) as Hin.
  set (s2 := (migrateLocalStorageToIndexedDB s1).2) in *.
  destruct (count (videos s1) =? 0)%nat eqn:Hc1.
  - destruct (count (videos s2) =? 0)%nat eqn:Hc2.
    + apply count_0 in Hc2.
      unfold settled, with_videos; simpl.
      change (eduportal_users (localStorage s2))
        with (getItem USERS_KEY (localStorage s2)).
      rewrite Hus', Hc2. auto.
    + unfold settled. rewrite Hus'. repeat split; auto.
      intros Hempty. apply count_0 in Hempty. congruence.
  - unfold settled. rewrite Hus'. repeat split; auto.
    intros Hempty. destruct Hne; [|done].
    intros Hv. apply count_0 in Hv. congruence.
Qed.

Lemma settled_initDB s : settled s → initDB s = s.
Proof.
  intros (Hdb & Hus & Hin & Hseed). unfold initDB.
  assert (Hopen : openDB s = s) by (unfold openDB; now rewrite Hdb).
  rewrite Hopen, Hus. simpl.
  rewrite (migrate_inert s Hin).
  destruct (count (videos s) =? 0)%nat eqn:Hc; [|done].
  apply count_0 in Hc. fold (seed (videos s)).
  rewrite Hc, (Hseed Hc). destruct s as [d m ls]; simpl in *. now subst.
Qed.

(** C3.  Running [initDB] a second time changes nothing: the object store
    holds the records it held after the first run, and a legacy key that the
    first run removed stays absent.  After [initDB] the legacy key holds no
    document, and a migration that ran without failing leaves it absent or
    holding the empty string. *)
Theorem initDB_idempotent s :
  initDB (initDB s) = initDB s ∧
  videos (initDB (initDB s)) = videos (initDB s) ∧
  (getItem VIDEOS_KEY (localStorage (initDB s)) = None →
   getItem VIDEOS_KEY (localStorage (initDB (initDB s))) = None) ∧
  (∀ v, getItem VIDEOS_KEY (localStorage (initDB s)) ≠ Some (Doc v)) ∧
  ((migrateLocalStorageToIndexedDB s).1 ≠ FailedToMigrate →
   truthy (getItem VIDEOS_KEY
             (localStorage (migrateLocalStorageToIndexedDB s).2)) = false).
Proof.
  pose proof (initDB_settled s) as Hs.
  rewrite (settled_initDB _ Hs).
  repeat split; auto using migrate_completed.
  apply Hs.
Qed.

(** *** Batches *)

(** Every request keeps the store keyed by [id], the key path of the store. *)
Lemma keyed_empty : keyed ∅.
Proof. intros k v. now rewrite lookup_empty. Qed.

Lemma perform_keyed m r m' : keyed m → perform m r = Some m' → keyed m'.
Proof.
  intros Hm. destruct r as [v|v|k|]; simpl.
  - intros [= <-] k' v'. rewrite lookup_insert. case_decide; [congruence|apply Hm].
  - destruct (m !! Video.id v); [done|].
    intros [= <-] k' v'. rewrite lookup_insert. case_decide; [congruence|apply Hm].
  - intros [= <-] k' v'. rewrite lookup_delete. case_decide; [done|apply Hm].
  - intros [= <-]. apply keyed_empty.
Qed.

Lemma perform_all_keyed m rs m' : keyed m → perform_all m rs = Some m' → keyed m'.
Proof.
  revert m. induction rs as [|r rs IH]; intros m Hm; simpl.
  - now intros [= <-].
  - destruct (perform m r) as [m1|] eqn:Hr; [|done].
    apply IH. now apply (perform_keyed m r).
Qed.

Lemma transaction_keyed tx rs m : keyed m → keyed (transaction tx rs m).2.
Proof.
  intros Hm. unfold transaction.
  destruct (perform_all m rs) as [m'|] eqn:Hrs; [|done].
  destruct tx; simpl; [|done]. now apply (perform_all_keyed m rs).
Qed.

Lemma find_id_cons k y vs :
  find_id k (y :: vs) = if decide (Video.id y = k) then Some y else find_id k vs.
Proof.
  unfold find_id. simpl. case_decide; [done|].
  now destruct (list_find _ vs) as [[j z]|].
Qed.

Lemma find_id_getAll m k : keyed m → find_id k (getAll m) = m !! k.
Proof.
  intros Hkeyed. unfold find_id.
  destruct (list_find _ (getAll m)) as [[i v]|] eqn:Hfind; simpl.
  - apply list_find_Some in Hfind as (Hi & Hid & _).
    apply list_elem_of_lookup_2, elem_of_getAll in Hi as [k' Hk'].
    rewrite <- Hid, (Hkeyed _ _ Hk'). done.
  - destruct (m !! k) as [v|] eqn:Hk; [|done].
    apply list_find_None in Hfind. rewrite Forall_forall in Hfind.
    destruct (Hfind v); [|eauto].
    apply elem_of_getAll. eauto.
Qed.

Lemma perform_all_Delete m ids :
  ∃ w : ObjectStore, perform_all m (Delete <$> ids) = Some w ∧
       ∀ k, w !! k = if bool_decide (k ∈ ids) then None else m !! k.
Proof.
  revert m. induction ids as [|id ids IH]; intros m; simpl.
  - exists m. split; [done|]. intros k.
    done.
  - destruct (IH (delete id m)) as (w & Hw & Hk). exists w. split; [done|].
    intros k. rewrite Hk.
    destruct (decide (k = id)) as [->|Hne].
    + rewrite lookup_delete_eq, (bool_decide_eq_true_2 (id ∈ id :: ids))
        by (apply elem_of_cons; now left).
      now case_bool_decide.
    + rewrite lookup_delete_ne by done.
      assert (k ∈ id :: ids ↔ k ∈ ids) as Hiff
        by (rewrite elem_of_cons; split; [intros [?|?]; [congruence|done]|now right]).
      now rewrite (bool_decide_ext _ _ Hiff).
Qed.

(** Once the transaction is finished, the loop throws at the first id that
    is found, and does nothing when none is. *)
Lemma forEach_id_finished change vs q ids :
  foldl (forEach_id change) (Some (vs, mkTransaction false q)) ids
  = if bool_decide (Exists (λ id, is_Some (find_id id vs)) ids) then None
    else Some (vs, mkTransaction false q).
Proof.
  assert (Hnone : ∀ ids, foldl (forEach_id change) None ids = None)
    by (intros l; induction l; auto).
  induction ids as [|id ids IH]; [done|].
  cbn [foldl].
  destruct (list_find (λ v, Video.id v = id) vs) as [[i video]|] eqn:Hfind.
  - assert (Hthrow : forEach_id change (Some (vs, mkTransaction false q)) id = None)
      by (unfold forEach_id; now rewrite Hfind).
    rewrite Hthrow, Hnone, bool_decide_eq_true_2; [done|].
    apply Exists_cons_hd. unfold find_id. rewrite Hfind. now eexists.
  - assert (Hskip : forEach_id change (Some (vs, mkTransaction false q)) id
                    = Some (vs, mkTransaction false q))
      by (unfold forEach_id; now rewrite Hfind).
    rewrite Hskip, IH.
    assert (Hiff : Exists (λ id, is_Some (find_id id vs)) (id :: ids)
                   ↔ Exists (λ id, is_Some (find_id id vs)) ids).
    { rewrite Exists_cons. unfold find_id at 1. rewrite Hfind.
      split; [|now right]. intros [[? [=]]|?]; done. }
    now rewrite (bool_decide_ext _ _ Hiff).
Qed.

Lemma batch_update_eq change videoIds s :
  batch_update change videoIds s
  = (if bool_decide (Exists (λ id, is_Some (find_id id (getAll (videos s)))) videoIds)
     then Settles (Rejected TransactionInactiveError)
     else NeverSettles,
     openDB s).
Proof.
  unfold batch_update, new_transaction, end_of_task, getRawVideos. cbn [is_active queue].
  unfold transaction. cbn [perform_all snd].
  assert (Hs : with_videos (videos (openDB s)) (openDB s) = openDB s)
    by (now destruct s as [[] m ls]).
  rewrite Hs, openDB_openDB, forEach_id_finished, videos_openDB.
  case_bool_decide; [done|].
  unfold completion. cbn [is_active]. now destruct s as [[] m ls].
Qed.

(* ===================================================================== *)
(** ** Further properties of the video store *)
(* ===================================================================== *)

Lemma db_openDB s : db (openDB s) = true.
Proof. now destruct s as [[] ? ?]. Qed.

Lemma openDB_set s : db s = true → openDB s = s.
Proof. unfold openDB. now intros ->. Qed.

Lemma find_id_app k l1 l2 :
  find_id k (l1 ++ l2)
  = match find_id k l1 with Some v => Some v | None => find_id k l2 end.
Proof.
  induction l1 as [|y l1 IH]; simpl; [done|].
  rewrite !find_id_cons. now case_decide.
Qed.

Lemma find_id_Some k l v : find_id k l = Some v → v ∈ l ∧ Video.id v = k.
Proof.
  unfold find_id. destruct (list_find _ l) as [[i w]|] eqn:Hfind; [|done].
  intros [= <-]. apply list_find_Some in Hfind as (Hi & Hid & _).
  eauto using list_elem_of_lookup_2.
Qed.

Lemma find_id_None k l : find_id k l = None → ∀ v, v ∈ l → Video.id v ≠ k.
Proof.
  unfold find_id. destruct (list_find _ l) as [[i w]|] eqn:Hfind; [done|].
  intros _ v Hv. apply list_find_None in Hfind.
  rewrite Forall_forall in Hfind. now apply Hfind.
Qed.

Lemma NoDup_id_inj (l : list Video) v w :
  NoDup (Video.id <$> l) → v ∈ l → w ∈ l → Video.id v = Video.id w → v = w.
Proof.
  intros Hnd [i Hi]%list_elem_of_lookup_1 [j Hj]%list_elem_of_lookup_1 Hid.
  assert (i = j) as ->; [|congruence].
  apply (NoDup_lookup _ i j (Video.id v) Hnd).
  - now rewrite list_lookup_fmap, Hi.
  - rewrite list_lookup_fmap, Hj. simpl. now f_equal.
Qed.

(** After a series of [put]s a key holds the last record put under it. *)
Lemma lookup_put_all m l k :
  put_all m l !! k
  = match find_id k (reverse l) with Some v => Some v | None => m !! k end.
Proof.
  revert m. induction l as [|v l IH]; intros m; simpl; [done|].
  rewrite IH, reverse_cons, find_id_app.
  destruct (find_id k (reverse l)); [done|].
  rewrite find_id_cons. case_decide as Hk.
  - subst k. apply lookup_insert_eq.
  - now rewrite lookup_insert_ne.
Qed.

Lemma lookup_put_all_NoDup l k v :
  NoDup (Video.id <$> l) →
  put_all ∅ l !! k = Some v ↔ v ∈ l ∧ Video.id v = k.
Proof.
  intros Hnd. rewrite lookup_put_all, lookup_empty.
  destruct (find_id k (reverse l)) as [w|] eqn:Hfind.
  - apply find_id_Some in Hfind as [Hw Hid]. rewrite elem_of_reverse in Hw.
    split.
    + intros [= <-]. now split.
    + intros [Hv Hvid]. f_equal. apply (NoDup_id_inj l); congruence.
  - split; [done|]. intros [Hv Hvid].
    destruct (find_id_None _ _ Hfind v); [now apply elem_of_reverse|done].
Qed.

(** A series of [add]s goes through when the ids are new and pairwise
    distinct, and fails otherwise. *)
Lemma perform_all_Add m l :
  NoDup (Video.id <$> l) → (∀ v, v ∈ l → m !! Video.id v = None) →
  perform_all m (Add <$> l) = Some (put_all m l).
Proof.
  revert m. induction l as [|v l IH]; intros m Hnd Hnew; simpl; [done|].
  apply NoDup_cons in Hnd as [Hv Hnd].
  rewrite (Hnew v) by (now left). apply IH; [done|].
  intros w Hw. rewrite lookup_insert_ne; [apply Hnew; now right|].
  intros Heq. apply Hv. rewrite Heq. now apply list_elem_of_fmap_2.
Qed.

Lemma perform_all_Add_taken m l :
  Exists (λ v, is_Some (m !! Video.id v)) l → perform_all m (Add <$> l) = None.
Proof.
  revert m. induction l as [|v l IH]; intros m Hex; simpl.
  - now apply Exists_nil in Hex.
  - destruct (m !! Video.id v) as [w|] eqn:Hv; [done|].
    apply Exists_cons in Hex as [Hex|Hex]; [rewrite Hv in Hex; now destruct Hex|].
    apply IH. eapply Exists_impl; [exact Hex|]. intros x [y Hy]. simpl.
    destruct (decide (Video.id v = Video.id x)) as [->|Hne].
    + rewrite lookup_insert_eq. eauto.
    + rewrite lookup_insert_ne by done. eauto.
Qed.

Lemma perform_all_Add_dup m l :
  ¬ NoDup (Video.id <$> l) → perform_all m (Add <$> l) = None.
Proof.
  revert m. induction l as [|v l IH]; intros m Hdup; simpl.
  - destruct Hdup. constructor.
  - destruct (m !! Video.id v) as [w|] eqn:Hv; [done|].
    destruct (decide (Video.id v ∈ Video.id <$> l)) as [Hin|Hnin].
    + apply perform_all_Add_taken.
      apply list_elem_of_fmap in Hin as (x & Hid & Hx).
      apply Exists_exists. exists x. split; [done|].
      rewrite <- Hid, lookup_insert_eq. eauto.
    + apply IH. intros Hnd. apply Hdup. now constructor.
Qed.

(** What [getVideos] lists without a [userId]: the records of the store. *)
Lemma getVideos_None_listing s :
  ∃ l, (getVideos None s).1 = Resolved l ∧ ∀ v, v ∈ l ↔ ∃ k, videos s !! k = Some v.
Proof.
  unfold getVideos, getRawVideos. rewrite videos_openDB. eexists. split; [done|].
  intros v. rewrite Array_sort_Permutation. apply elem_of_getAll.
Qed.

(** X1.  When the id that [addVideo] generates is not yet a key of the
    store, [addVideo] resolves to the data it was given under that id, the
    store gains exactly that record, [localStorage] is untouched, and the
    next [getVideos] lists the new record beside the records that were
    there. *)
Theorem addVideo_then_listed now videoData s :
  videos s !! Video.id (newVideo now videoData) = None →
  let added := newVideo now videoData in
  let s' := (addVideo now videoData s).2 in
  (addVideo now videoData s).1 = Resolved added ∧
  videos s' = <[Video.id added := added]> (videos s) ∧
  localStorage s' = localStorage s ∧
  ∃ l, (getVideos None s').1 = Resolved l ∧
       added ∈ l ∧
       ∀ v, v ∈ l ↔ v = added ∨ ∃ k, videos s !! k = Some v.
Proof.
  intros Hnew added s'.
  assert (Hs' : addVideo now videoData s
                = (Resolved added,
                   with_videos (<[Video.id added := added]> (videos s)) (openDB s))).
  { unfold addVideo, transaction, perform_all, perform.
    now rewrite videos_openDB, Hnew. }
  subst s'. rewrite Hs'. simpl.
  split; [done|]. split; [done|]. split; [apply localStorage_openDB|].
  destruct (getVideos_None_listing
              (with_videos (<[Video.id added := added]> (videos s)) (openDB s)))
    as (l & Hl & Hin).
  exists l. split; [done|].
  assert (Hiff : ∀ v, v ∈ l ↔ v = added ∨ ∃ k, videos s !! k = Some v).
  { intros v. rewrite Hin. simpl. split.
    - intros [k Hk]. destruct (decide (Video.id added = k)) as [<-|Hne].
      + rewrite lookup_insert_eq in Hk. left. congruence.
      + rewrite lookup_insert_ne in Hk by done. eauto.
    - intros [->|[k Hk]].
      + exists (Video.id added). apply lookup_insert_eq.
      + exists k. rewrite lookup_insert_ne; [done|]. intros <-.
        simpl in Hnew, Hk. congruence. }
  split; [|done]. apply Hiff. now left.
Qed.

(** X2.  Two [addVideo] calls during the same millisecond generate the same
    id: whatever the first did, the second is rejected with a
    [ConstraintError] and changes nothing. *)
Theorem addVideo_same_millisecond now videoData1 videoData2 s :
  addVideo now videoData2 (addVideo now videoData1 s).2
  = (Rejected ConstraintError, (addVideo now videoData1 s).2).
Proof.
  unfold addVideo at 2 3. unfold transaction. simpl.
  destruct (videos (openDB s) !! ("video_" +:+ pretty now)) as [old|] eqn:Hold;
    simpl.
  - unfold addVideo, transaction. simpl. now rewrite openDB_openDB, Hold.
  - unfold addVideo, transaction. simpl.
    rewrite openDB_set by apply db_openDB. simpl.
    now rewrite lookup_insert_eq.
Qed.

(** X3.  On a store keyed by id, [updateVideo] of an id that is there, with
    a patch that carries no id or the same id, resolves to the stored record
    with the fields of the patch laid over it, stores that record under the
    id and leaves every other record and [localStorage] as they were. *)
Theorem updateVideo_merges videoId updatedData video s :
  keyed (videos s) →
  videos s !! videoId = Some video →
  PartialVideo.id updatedData = None ∨ PartialVideo.id updatedData = Some videoId →
  let merged := spread_video video updatedData in
  let s' := (updateVideo videoId updatedData s).2 in
  (updateVideo videoId updatedData s).1 = Resolved (Some merged) ∧
  Video.id merged = videoId ∧
  videos s' !! videoId = Some merged ∧
  (∀ k, k ≠ videoId → videos s' !! k = videos s !! k) ∧
  localStorage s' = localStorage s.
Proof.
  intros Hkeyed Hv Hpatch merged s'.
  assert (Hid : Video.id merged = videoId).
  { subst merged. simpl. destruct Hpatch as [-> | ->]; simpl; [|done].
    now apply Hkeyed. }
  subst s'. unfold updateVideo, transaction, perform_all, perform.
  rewrite videos_openDB, Hv. cbv zeta. fold merged. rewrite Hid.
  unfold with_videos. cbn [fst snd videos localStorage].
  split; [done|]. split; [done|]. split; [apply lookup_insert_eq|].
  split; [|apply localStorage_openDB].
  intros k Hk. now rewrite lookup_insert_ne.
Qed.

(** X4.  [updateVideo] does not rename: when the patch carries another id,
    the record found under [videoId] stays as it was, and the merged record
    is put under the id of the patch, over whatever was there. *)
Theorem updateVideo_with_another_id videoId newId updatedData video s :
  videos s !! videoId = Some video →
  PartialVideo.id updatedData = Some newId →
  newId ≠ videoId →
  let merged := spread_video video updatedData in
  let s' := (updateVideo videoId updatedData s).2 in
  (updateVideo videoId updatedData s).1 = Resolved (Some merged) ∧
  videos s' !! videoId = Some video ∧
  videos s' !! newId = Some merged ∧
  ∀ k, k ≠ newId → videos s' !! k = videos s !! k.
Proof.
  intros Hv Hpatch Hne merged s'.
  assert (Hid : Video.id merged = newId) by (subst merged; simpl; now rewrite Hpatch).
  subst s'. unfold updateVideo, transaction, perform_all, perform.
  rewrite videos_openDB, Hv. cbv zeta. fold merged. rewrite Hid.
  unfold with_videos. cbn [fst snd videos localStorage].
  split; [done|]. split; [now rewrite lookup_insert_ne|].
  split; [apply lookup_insert_eq|].
  intros k Hk. now rewrite lookup_insert_ne.
Qed.

Lemma deleteVideo_eq videoId s :
  deleteVideo videoId s
  = (Resolved (), mkState true (delete videoId (videos s)) (localStorage s)).
Proof.
  unfold deleteVideo, transaction, with_videos. simpl.
  now rewrite db_openDB, videos_openDB, localStorage_openDB.
Qed.

(** X5.  [deleteVideo] always resolves: the id is no longer a key, every
    other record and the whole of [localStorage] (so every completion list
    and progress map that mentions the id) are left as they were; deleting
    an id that is not there, or deleting a second time, changes nothing. *)
Theorem deleteVideo_removes videoId s :
  let s' := (deleteVideo videoId s).2 in
  (deleteVideo videoId s).1 = Resolved () ∧
  videos s' !! videoId = None ∧
  (∀ k, k ≠ videoId → videos s' !! k = videos s !! k) ∧
  localStorage s' = localStorage s ∧
  (videos s !! videoId = None → videos s' = videos s) ∧
  deleteVideo videoId s' = (Resolved (), s').
Proof.
  intros s'. subst s'. rewrite !deleteVideo_eq. simpl.
  split; [done|]. split; [apply lookup_delete_eq|].
  split; [intros k Hk; now rewrite lookup_delete_ne|].
  split; [done|]. split; [apply delete_id|].
  do 2 f_equal. apply delete_id, lookup_delete_eq.
Qed.

(** X6.  A [deleteMultipleVideos] whose transaction commits does what
    [deleteVideo] does for each id of the list in turn. *)
Theorem deleteMultipleVideos_one_by_one videoIds s :
  deleteMultipleVideos Commits videoIds s
  = (Resolved (), foldl (λ s videoId, (deleteVideo videoId s).2) (openDB s) videoIds).
Proof.
  unfold deleteMultipleVideos, transaction.
  destruct (perform_all_Delete (videos (openDB s)) videoIds) as (w & Hw & _).
  rewrite Hw. f_equal.
  assert (Hopen : openDB s = mkState true (videos s) (localStorage s))
    by (now destruct s as [[] ? ?]).
  rewrite Hopen in *. simpl in Hw. unfold with_videos. simpl.
  generalize (localStorage s) as ls. revert w Hw. generalize (videos s) as m.
  induction videoIds as [|videoId videoIds IH]; intros m w Hw ls;
    simpl in Hw; cbn [foldl].
  - now injection Hw as <-.
  - exact (IH _ _ Hw ls).
Qed.

(** X7.  [resetVideos] replaces the catalog by the seed videos when their
    ids are pairwise distinct: a record is in the store afterwards exactly
    when it is a seed video.  When two seed videos share an id the whole
    transaction fails, the [clear] included: the catalog is the one before
    the reset, and the promise rejects with [null], which is what
    [transaction.error] still holds when the [onerror] handler reads it. *)
Theorem resetVideos_replaces_catalog s :
  (NoDup (Video.id <$> initialVideos) →
   (resetVideos s).1 = Resolved () ∧
   ∀ k v, videos (resetVideos s).2 !! k = Some v ↔ v ∈ initialVideos ∧ Video.id v = k) ∧
  (¬ NoDup (Video.id <$> initialVideos) →
   resetVideos s = (Rejected null, openDB s)).
Proof.
  unfold resetVideos, transaction. simpl. split.
  - intros Hnd. rewrite perform_all_Add by (done || intros; apply lookup_empty).
    simpl. split; [done|]. intros k v. now apply lookup_put_all_NoDup.
  - intros Hdup. now rewrite perform_all_Add_dup.
Qed.

(* ===================================================================== *)
(** ** Further properties of the startup *)
(* ===================================================================== *)

Lemma after_users_seed_keeps s :
  videos (after_users_seed s) = videos s ∧
  getItem VIDEOS_KEY (localStorage (after_users_seed s))
  = getItem VIDEOS_KEY (localStorage s) ∧
  eduportal_completions (localStorage (after_users_seed s))
  = eduportal_completions (localStorage s) ∧
  eduportal_progress (localStorage (after_users_seed s))
  = eduportal_progress (localStorage s) ∧
  getItem USERS_KEY (localStorage (after_users_seed s))
  = if truthy (getItem USERS_KEY (localStorage s))
    then getItem USERS_KEY (localStorage s)
    else Some (Doc (Shaped initialUsers)).
Proof.
  unfold after_users_seed. rewrite localStorage_openDB.
  destruct (truthy (getItem USERS_KEY (localStorage s))); simpl;
    rewrite ?videos_openDB, ?localStorage_openDB; done.
Qed.

Lemma migrate_keeps_user_data s :
  let ls' := localStorage (migrateLocalStorageToIndexedDB s).2 in
  eduportal_users ls' = eduportal_users (localStorage s) ∧
  eduportal_completions ls' = eduportal_completions (localStorage s) ∧
  eduportal_progress ls' = eduportal_progress (localStorage s).
Proof.
  pose proof (migrate_cases s) as H.
  destruct (getItem VIDEOS_KEY (localStorage s)) as [[raw|[[|v l]|m]]|];
    rewrite H; done.
Qed.

(** The table that [getUsers] returns depends on the users item only. *)
Lemma getUsers_item ls1 ls2 :
  getItem USERS_KEY ls1 = getItem USERS_KEY ls2 → (getUsers ls1).1 = (getUsers ls2).1.
Proof.
  intros H. unfold getUsers, getFromStorage. rewrite H.
  destruct (getItem USERS_KEY ls2) as [[raw|[users|m]]|]; simpl; try done.
  now destruct (negb _).
Qed.

(** X8.  With nothing to migrate, [initDB] seeds the catalog exactly when
    the store is empty: a store that holds a record is left as it is, and an
    empty one (a new database as well as a catalog whose videos were all
    deleted) receives the seed videos, a record being in the store
    afterwards exactly when it is a seed video, their ids being pairwise
    distinct. *)
Theorem initDB_seeds_only_an_empty_store s :
  legacy_inert (localStorage s) →
  (videos s ≠ ∅ → videos (initDB s) = videos s) ∧
  (videos s = ∅ →
   NoDup (Video.id <$> initialVideos) →
   ∀ k v, videos (initDB s) !! k = Some v ↔ v ∈ initialVideos ∧ Video.id v = k).
Proof.
  intros Hin. unfold initDB. fold (after_users_seed s).
  destruct (after_users_seed_keeps s) as (Hv & Hl & _).
  assert (Hin1 : legacy_inert (localStorage (after_users_seed s)))
    by (intros v; rewrite Hl; apply Hin).
  rewrite (migrate_inert _ Hin1), Hv.
  split.
  - intros Hne. destruct (count (videos s) =? 0)%nat eqn:Hc; [|done].
    now apply count_0 in Hc.
  - intros Hempty Hnd k v. rewrite (proj2 (count_0 _) Hempty), Hempty.
    unfold transaction.
    rewrite perform_all_Add by (done || intros; apply lookup_empty). simpl.
    now apply lookup_put_all_NoDup.
Qed.

(** X9.  With a non-empty legacy list in [localStorage], [initDB] puts
    every legacy record into the store under its id (the last one of the
    list when an id repeats) over whatever the store held under that id,
    keeps the records of the store under other ids, adds no seed video and
    removes the legacy key. *)
Theorem initDB_upserts_legacy_videos s l :
  getItem VIDEOS_KEY (localStorage s) = Some (Doc (Shaped l)) →
  l ≠ [] →
  getItem VIDEOS_KEY (localStorage (initDB s)) = None ∧
  ∀ k, videos (initDB s) !! k
       = match find_id k (reverse l) with
         | Some v => Some v
         | None => videos s !! k
         end.
Proof.
  intros Hl Hne. unfold initDB. fold (after_users_seed s).
  destruct (after_users_seed_keeps s) as (Hv & Hl1 & _).
  rewrite Hl in Hl1.
  pose proof (migrate_cases (after_users_seed s)) as Hm. rewrite Hl1 in Hm.
  destruct l as [|v l]; [done|].
  assert (Hfull : (count (put_all (videos (after_users_seed s)) (v :: l)) =? 0)%nat
                  = false).
  { apply not_true_is_false. intros Hc%count_0.
    apply (put_all_non_empty _ (v :: l)) in Hc; [done|now right]. }
  rewrite Hm. cbn [snd videos localStorage]. rewrite Hfull.
  assert (Hres : ∀ t : state,
             t = mkState true (put_all (videos (after_users_seed s)) (v :: l))
                   (removeItem VIDEOS_KEY (localStorage (after_users_seed s))) →
             getItem VIDEOS_KEY (localStorage t) = None ∧
             ∀ k, videos t !! k
                  = match find_id k (reverse (v :: l)) with
                    | Some v => Some v
                    | None => videos s !! k
                    end).
  { intros t ->. split; [done|]. intros k.
    cbn [videos]. now rewrite lookup_put_all, Hv. }
  destruct (count (videos (after_users_seed s)) =? 0)%nat; now apply Hres.
Qed.

(** X10.  [initDB] seeds the users only when there is no users item (or an
    empty string): an item that is there is left as it is, whatever it
    holds, so that the table read by [getUsers] is the one before the
    startup, an emptied table included.  The completion lists and progress
    maps are never touched. *)
Theorem initDB_keeps_user_data s :
  (truthy (getItem USERS_KEY (localStorage s)) = true →
   getItem USERS_KEY (localStorage (initDB s)) = getItem USERS_KEY (localStorage s) ∧
   (getUsers (localStorage (initDB s))).1 = (getUsers (localStorage s)).1) ∧
  (truthy (getItem USERS_KEY (localStorage s)) = false →
   (getUsers (localStorage (initDB s))).1 = initialUsers) ∧
  eduportal_completions (localStorage (initDB s))
  = eduportal_completions (localStorage s) ∧
  eduportal_progress (localStorage (initDB s))
  = eduportal_progress (localStorage s).
Proof.
  assert (Hinit : ∃ t, initDB s = t ∧
                       eduportal_users (localStorage t)
                       = eduportal_users (localStorage (after_users_seed s)) ∧
                       eduportal_completions (localStorage t)
                       = eduportal_completions (localStorage (after_users_seed s)) ∧
                       eduportal_progress (localStorage t)
                       = eduportal_progress (localStorage (after_users_seed s))).
  { eexists. split; [reflexivity|]. unfold initDB. fold (after_users_seed s).
    pose proof (migrate_keeps_user_data (after_users_seed s)) as (Hu & Hc & Hp).
    destruct (count (videos (after_users_seed s)) =? 0)%nat; [|done].
    destruct (count _ =? 0)%nat; simpl; auto. }
  destruct Hinit as (t & -> & Hu & Hc & Hp).
  destruct (after_users_seed_keeps s) as (_ & _ & Hc1 & Hp1 & Hu1).
  change (eduportal_users (localStorage t)) with (getItem USERS_KEY (localStorage t)) in Hu.
  change (eduportal_users (localStorage (after_users_seed s)))
    with (getItem USERS_KEY (localStorage (after_users_seed s))) in Hu.
  rewrite Hu1 in Hu.
  split; [|split; [|split; congruence]].
  - intros Htruthy. rewrite Htruthy in Hu. split; [done|].
    now apply getUsers_item.
  - intros Htruthy. rewrite Htruthy in Hu.
    unfold getUsers, getFromStorage. now rewrite Hu.
Qed.

(* ===================================================================== *)
(** ** Further properties of the user table *)
(* ===================================================================== *)

Lemma registerStudent_eq now userData ls :
  registerStudent now userData ls
  = if bool_decide (Exists (same_email (UserData.email userData)) (getUsers ls).1)
    then (None, (getUsers ls).2)
    else (Some (userWithoutPassword (newUser now userData)),
          saveToStorage USERS_KEY ((getUsers ls).1 ++ [newUser now userData])
                        (getUsers ls).2).
Proof. unfold registerStudent. now destruct (getUsers ls). Qed.

Lemma authenticateUser_eq email password_sent ls :
  authenticateUser email password_sent ls
  = match list_find (same_email email) (getUsers ls).1 with
    | Some (_, user) =>
        if bool_decide (User.password user = Some password_sent)
        then (Some (userWithoutPassword user), (getUsers ls).2)
        else (None, (getUsers ls).2)
    | None => (None, (getUsers ls).2)
    end.
Proof. unfold authenticateUser. now destruct (getUsers ls). Qed.

Lemma changePassword_eq userId oldPass newPass ls :
  changePassword userId oldPass newPass ls
  = match list_find (has_id userId) (getUsers ls).1 with
    | Some (i, user) =>
        if bool_decide (User.password user = Some oldPass)
        then (true, saveToStorage USERS_KEY
                      (<[i := set_password newPass user]> (getUsers ls).1)
                      (getUsers ls).2)
        else (false, (getUsers ls).2)
    | None => (false, (getUsers ls).2)
    end.
Proof. unfold changePassword. now destruct (getUsers ls). Qed.

Lemma updateUserProfile_eq userId updatedData ls :
  updateUserProfile userId updatedData ls
  = match list_find (has_id userId) (getUsers ls).1 with
    | None => (None, (getUsers ls).2)
    | Some (i, user) =>
        (userWithoutPassword
           <$> <[i := spread_user user updatedData]> (getUsers ls).1 !! i,
         saveToStorage USERS_KEY
           (<[i := spread_user user updatedData]> (getUsers ls).1) (getUsers ls).2)
    end.
Proof. unfold updateUserProfile. now destruct (getUsers ls). Qed.

Lemma deleteUser_eq userId ls :
  deleteUser userId ls
  = saveToStorage USERS_KEY (filter (λ u, User.id u ≠ userId) (getUsers ls).1)
                  (getUsers ls).2.
Proof. unfold deleteUser. now destruct (getUsers ls). Qed.

(** Replacing the record that [find] returns by one that the predicate
    accepts as well keeps it the one that [find] returns. *)
Lemma list_find_insert_found {A} (P : A → Prop) `{∀ x, Decision (P x)} l i x y :
  list_find P l = Some (i, x) → P y → list_find P (<[i := y]> l) = Some (i, y).
Proof.
  intros Hfind Hy. apply list_find_Some in Hfind as (Hi & _ & Hleast).
  apply list_find_Some.
  split; [|split; [done|]].
  - apply list_lookup_insert_eq. exact (lookup_lt_Some _ _ _ Hi).
  - intros j z Hj Hlt. rewrite list_lookup_insert_ne in Hj by lia. eauto.
Qed.

(** X11.  A student who has just registered with a password logs in with
    it: [authenticateUser] with the registered email, in any letter case
    (an email with the same [toLowerCase]), returns the very user that
    [registerStudent] returned, an active student
    whose id is [user_] followed by the time of the registration. *)
Theorem registerStudent_then_authenticate now userData ls u ls' email p :
  registerStudent now userData ls = (Some u, ls') →
  UserData.password userData = Some p →
  toLowerCase email = toLowerCase (UserData.email userData) →
  authenticateUser email p ls' = (Some u, ls') ∧
  User.type u = student ∧
  User.status u = active ∧
  User.id u = "user_" +:+ pretty now.
Proof.
  rewrite registerStudent_eq. case_bool_decide as Hex; [done|].
  intros [= <- <-] Hp Hcase.
  split; [|done].
  rewrite authenticateUser_eq, getUsers_saved. cbn [fst snd].
  assert (Hfind : list_find (same_email email)
                    ((getUsers ls).1 ++ [newUser now userData])
                  = Some (length (getUsers ls).1, newUser now userData)).
  { apply list_find_Some. split; [|split].
    - now rewrite lookup_app_r, Nat.sub_diag by lia.
    - unfold same_email. simpl. now rewrite Hcase.
    - intros j y Hj Hlt Hy. rewrite lookup_app_l in Hj by done.
      apply Hex, Exists_exists. exists y.
      split; [eauto using list_elem_of_lookup_2|].
      revert Hy. unfold same_email. now rewrite Hcase. }
  rewrite Hfind. rewrite bool_decide_eq_true_2; [done|]. simpl. done.
Qed.

(** X12.  A second registration with the same email, in any letter case
    (an email with the same [toLowerCase]), always fails, whether the first
    one went through or not, and writes nothing. *)
Theorem registerStudent_twice now1 now2 userData1 userData2 ls :
  toLowerCase (UserData.email userData2) = toLowerCase (UserData.email userData1) →
  registerStudent now2 userData2 (registerStudent now1 userData1 ls).2
  = (None, (registerStudent now1 userData1 ls).2).
Proof.
  intros Hcase.
  assert (Hsame : ∀ x, same_email (UserData.email userData2) x
                       ↔ same_email (UserData.email userData1) x)
    by (intros x; unfold same_email; now rewrite Hcase).
  rewrite (registerStudent_eq now1). case_bool_decide as Hex; cbn [snd].
  - rewrite registerStudent_eq, getUsers_again.
    rewrite bool_decide_eq_true_2; [done|].
    eapply Exists_impl; [exact Hex|]. intros x. apply Hsame.
  - rewrite registerStudent_eq, getUsers_saved. cbn [fst snd].
    rewrite bool_decide_eq_true_2; [done|].
    apply Exists_app. right. apply Exists_cons_hd.
    unfold same_email. simpl. done.
Qed.

(** X13.  When the first user with the id [userId] has the password
    [oldPass] and is the first user with its email, [changePassword] returns
    [true] and the user then logs in with [newPass], and no longer with
    [oldPass] when the two differ. *)
Theorem changePassword_then_authenticate userId oldPass newPass ls i u :
  list_find (has_id userId) (getUsers ls).1 = Some (i, u) →
  list_find (same_email (User.email u)) (getUsers ls).1 = Some (i, u) →
  User.password u = Some oldPass →
  let ls' := (changePassword userId oldPass newPass ls).2 in
  (changePassword userId oldPass newPass ls).1 = true ∧
  authenticateUser (User.email u) newPass ls' = (Some (userWithoutPassword u), ls') ∧
  (newPass ≠ oldPass → (authenticateUser (User.email u) oldPass ls').1 = None).
Proof.
  intros Hid Hemail Hpw ls'. subst ls'.
  rewrite changePassword_eq, Hid, bool_decide_eq_true_2 by done. cbn [fst snd].
  split; [done|].
  assert (Hfind : list_find (same_email (User.email u))
                    (<[i := set_password newPass u]> (getUsers ls).1)
                  = Some (i, set_password newPass u)).
  { eapply list_find_insert_found; [exact Hemail|]. unfold same_email. done. }
  rewrite !authenticateUser_eq, getUsers_saved. cbn [fst snd]. rewrite Hfind.
  split.
  - now rewrite bool_decide_eq_true_2.
  - intros Hne. rewrite bool_decide_eq_false_2; [done|]. simpl. congruence.
Qed.

(** X14.  [changePassword] returns [false] and writes nothing when no user
    has the id or when the first user with the id has another password, or
    none; it returns [true] in no other case. *)
Theorem changePassword_refused userId oldPass newPass ls :
  ((changePassword userId oldPass newPass ls).1 = true ↔
   ∃ i u, list_find (has_id userId) (getUsers ls).1 = Some (i, u) ∧
          User.password u = Some oldPass) ∧
  ((changePassword userId oldPass newPass ls).1 = false →
   (changePassword userId oldPass newPass ls).2 = (getUsers ls).2).
Proof.
  rewrite changePassword_eq.
  destruct (list_find _ _) as [[i u]|] eqn:Hfind.
  - case_bool_decide as Hpw; cbn [fst snd].
    + split; [|done]. split; [eauto|done].
    + split; [|done]. split; [done|]. intros (j & w & [= <- <-] & Hw). done.
  - cbn [fst snd]. split; [|done]. split; [done|]. now intros (j & w & ? & _).
Qed.

(** X15.  [deleteUser] removes every user with the id and no other: the
    users that remain are the others, in the order they were in.  The id
    can then no longer be updated or given a new password, and a second
    [deleteUser] changes nothing. *)
Theorem deleteUser_removes userId updatedData oldPass newPass ls :
  let ls' := deleteUser userId ls in
  (getUsers ls').1 = filter (λ u, User.id u ≠ userId) (getUsers ls).1 ∧
  (∀ u, u ∈ (getUsers ls').1 ↔ u ∈ (getUsers ls).1 ∧ User.id u ≠ userId) ∧
  updateUserProfile userId updatedData ls' = (None, ls') ∧
  changePassword userId oldPass newPass ls' = (false, ls') ∧
  deleteUser userId ls' = ls'.
Proof.
  intros ls'. subst ls'. rewrite deleteUser_eq.
  set (rest := filter (λ u, User.id u ≠ userId) (getUsers ls).1).
  assert (Hnone : list_find (has_id userId) rest = None).
  { apply list_find_None, Forall_forall. intros u Hu.
    now apply list_elem_of_filter in Hu as [Hne _]. }
  rewrite updateUserProfile_eq, changePassword_eq, deleteUser_eq, getUsers_saved.
  cbn [fst snd]. rewrite Hnone.
  split; [done|]. split; [|split; [done|split; [done|]]].
  - intros u. subst rest. rewrite list_elem_of_filter. split; intros [? ?]; done.
  - unfold saveToStorage. rewrite setItem_setItem. subst rest.
    now rewrite list_filter_filter_l.
Qed.

(** X16.  [updateUserProfile] takes any field from the patch, the password
    included: when the first user with the id is the first with its email
    and the patch carries a password and no email, the user afterwards logs
    in with the password of the patch, and the function has returned the
    updated user without it. *)
Theorem updateUserProfile_can_set_password userId updatedData ls i u p :
  list_find (has_id userId) (getUsers ls).1 = Some (i, u) →
  list_find (same_email (User.email u)) (getUsers ls).1 = Some (i, u) →
  PartialUser.email updatedData = None →
  PartialUser.password updatedData = Some p →
  let updated := userWithoutPassword (spread_user u updatedData) in
  let ls' := (updateUserProfile userId updatedData ls).2 in
  (updateUserProfile userId updatedData ls).1 = Some updated ∧
  User.password updated = None ∧
  authenticateUser (User.email u) p ls' = (Some updated, ls').
Proof.
  intros Hid Hemail Hnoemail Hpw updated ls'. subst updated ls'.
  rewrite updateUserProfile_eq, Hid. cbn [fst snd].
  assert (Hi : (i < length (getUsers ls).1)%nat).
  { apply list_find_Some in Hid as (Hi & _). eauto using lookup_lt_Some. }
  rewrite list_lookup_insert_eq by done.
  split; [done|]. split; [done|].
  assert (Hsame : User.email (spread_user u updatedData) = User.email u)
    by (simpl; now rewrite Hnoemail).
  assert (Hfind : list_find (same_email (User.email u))
                    (<[i := spread_user u updatedData]> (getUsers ls).1)
                  = Some (i, spread_user u updatedData)).
  { eapply list_find_insert_found; [exact Hemail|].
    unfold same_email. now rewrite Hsame. }
  rewrite authenticateUser_eq, getUsers_saved. cbn [fst snd]. rewrite Hfind.
  rewrite bool_decide_eq_true_2; [done|]. simpl. now rewrite Hpw.
Qed.

(* ===================================================================== *)
(** ** Further properties of progress, completions and tags *)
(* ===================================================================== *)

Lemma getProgressForUser_saved userId progress ls :
  getProgressForUser userId (saveToStorage (getProgressKey userId) progress ls)
  = (JSON_progress <$> progress, saveToStorage (getProgressKey userId) progress ls).
Proof.
  unfold getProgressForUser, saveToStorage, JSON_stringify.
  now rewrite getFromStorage_setItem_Doc.
Qed.

(** Resetting a progress item touches that item only. *)
Lemma getProgressForUser_storage userId ls :
  let ls' := (getProgressForUser userId ls).2 in
  eduportal_users ls' = eduportal_users ls ∧
  eduportal_videos ls' = eduportal_videos ls ∧
  eduportal_completions ls' = eduportal_completions ls ∧
  ∀ otherId, otherId ≠ userId →
             eduportal_progress ls' !! otherId = eduportal_progress ls !! otherId.
Proof.
  unfold getProgressForUser.
  destruct (getFromStorage (getProgressKey userId) ∅ ls); simpl; [done|].
  repeat split. intros otherId Hne. now apply lookup_insert_ne.
Qed.




(** X17.  After [updateVideoProgress] the progress map of the user is the
    one read before (a map as [JSON.parse] returns them) with the entry of
    the video set to the given numbers as JSON keeps them: a NaN or an
    infinity is read back as [null].  When the video id is [__proto__] and
    the map has no entry of its own under it, the report is lost: the map is
    the one before.  The progress of every other user, the user table and
    the completion lists are untouched. *)
Theorem updateVideoProgress_then_read userId otherId videoId progress duration ls :
  otherId ≠ userId →
  let old := (getProgressForUser userId ls).1 in
  let ls' := updateVideoProgress userId videoId progress duration ls in
  JSON_progress <$> old = old →
  getProgressForUser userId ls'
  = (if bool_decide (videoId = "__proto__" ∧ old !! videoId = None) then old
     else <[videoId := {| VideoProgress.progress := JSON_number progress;
                          VideoProgress.duration := JSON_number duration |}]> old,
     ls') ∧
  getItem (getProgressKey otherId) ls' = getItem (getProgressKey otherId) ls ∧
  eduportal_users ls' = eduportal_users ls ∧
  eduportal_completions ls' = eduportal_completions ls.
Proof.
  intros Hne old ls'. subst old ls'. unfold updateVideoProgress.
  destruct (getProgressForUser_storage userId ls) as (Hu & _ & Hc & Hp).
  destruct (getProgressForUser userId ls) as [userProgress ls0]. simpl in *.
  intros Hparsed.
  split; [|split; [|done]].
  - rewrite getProgressForUser_saved. f_equal.
    unfold Object_set. case_bool_decide; [done|].
    now rewrite fmap_insert, Hparsed.
  - rewrite lookup_insert_ne by done. now apply Hp.
Qed.

Lemma stored_completions_item userId ls1 ls2 :
  eduportal_completions ls1 !! userId = eduportal_completions ls2 !! userId →
  stored_completions userId ls1 = stored_completions userId ls2.
Proof. unfold stored_completions, getFromStorage. simpl. now intros ->. Qed.




Lemma stored_completions_saved userId completions ls :
  stored_completions userId (saveToStorage (getCompletionsKey userId) completions ls)
  = completions.
Proof.
  unfold stored_completions, saveToStorage, JSON_stringify.
  now rewrite getFromStorage_setItem_Doc.
Qed.

(** Membership in the completion list after [updateVideoCompletion]. *)
Lemma updateVideoCompletion_elem_of userId videoId isCompleted ls id :
  id ∈ stored_completions userId (updateVideoCompletion userId videoId isCompleted ls)
  ↔ if bool_decide (id = videoId) then isCompleted = true
    else id ∈ stored_completions userId ls.
Proof.
  unfold updateVideoCompletion. rewrite stored_completions_saved.
  fold (stored_completions userId ls).
  destruct isCompleted.
  - case_bool_decide as Hin; case_bool_decide as Hid; subst;
      rewrite ?elem_of_app, ?list_elem_of_singleton; split; auto;
      intros [?|?]; done.
  - rewrite list_elem_of_filter. case_bool_decide as Hid; subst.
    + split; [now intros [? _]|done].
    + split; [now intros [_ ?]|done].
Qed.

Lemma updateVideoCompletion_other userId otherId videoId isCompleted ls :
  otherId ≠ userId →
  stored_completions otherId (updateVideoCompletion userId videoId isCompleted ls)
  = stored_completions otherId ls.
Proof.
  intros Hne. apply stored_completions_item.
  unfold updateVideoCompletion, saveToStorage. simpl. now apply lookup_insert_ne.
Qed.

(** X20.  After [updateVideoCompletion(userId, videoId, isCompleted)] the
    listing for that user shows the video with [completed] equal to
    [isCompleted] and every other video with the flag that the completion
    list gave it before; this [getVideos] writes nothing. *)
Theorem updateVideoCompletion_then_listed userId videoId isCompleted handle catalog ls :
  userId ≠ EmptyString →
  let ls' := updateVideoCompletion userId videoId isCompleted ls in
  ∃ l, getVideos (Some userId) (mkState handle catalog ls')
       = (Resolved l, mkState true catalog ls') ∧
       ∀ v, v ∈ l →
            Video.completed v
            = Some (if bool_decide (Video.id v = videoId) then isCompleted
                    else bool_decide (Video.id v ∈ stored_completions userId ls)).
Proof.
  intros Hid ls'.
  pose proof (updateVideoCompletion_elem_of userId videoId isCompleted ls) as Hin.
  fold ls' in Hin.
  assert (Hread : read_completions userId ls' = (stored_completions userId ls', ls')).
  { subst ls'. unfold read_completions, stored_completions, updateVideoCompletion.
    unfold saveToStorage, JSON_stringify. now rewrite !getFromStorage_setItem_Doc. }
  eexists. split.
  - unfold getVideos, getRawVideos. rewrite bool_decide_eq_false_2 by done.
    replace (localStorage (openDB (mkState handle catalog ls'))) with ls'
      by (now destruct handle).
    rewrite Hread. now destruct handle.
  - intros v (x & -> & _)%list_elem_of_fmap. simpl. f_equal.
    destruct (decide (Video.id x = videoId)) as [Hx|Hx].
    + rewrite (bool_decide_eq_true_2 (Video.id x = videoId)) by done.
      destruct isCompleted.
      * apply bool_decide_eq_true_2, Hin. now rewrite bool_decide_eq_true_2.
      * apply bool_decide_eq_false_2. intros Hmem. apply Hin in Hmem.
        now rewrite bool_decide_eq_true_2 in Hmem.
    + rewrite (bool_decide_eq_false_2 (Video.id x = videoId)) by done.
      apply bool_decide_ext. rewrite Hin. now rewrite bool_decide_eq_false_2.
Qed.

(** X21.  [updateMultipleVideosStatus] and [addTagsToMultipleVideos] store
    nothing and never resolve: the transaction they opened before
    [await getRawVideos()] has committed, empty, when they come to it.  On a
    store keyed by id, when an id of the list is a key the first [store.put]
    throws and the promise rejects with a [TransactionInactiveError]; when
    none is, the promise never settles.  The store and [localStorage] are
    left as they were. *)
Theorem batch_updates_store_nothing videoIds status tagsToAdd s out :
  keyed (videos s) →
  out = updateMultipleVideosStatus videoIds status s
  ∨ out = addTagsToMultipleVideos videoIds tagsToAdd s →
  videos out.2 = videos s ∧
  localStorage out.2 = localStorage s ∧
  (∀ r, out.1 ≠ Settles (Resolved r)) ∧
  ((∃ id, id ∈ videoIds ∧ is_Some (videos s !! id)) →
   out.1 = Settles (Rejected TransactionInactiveError)) ∧
  ((∀ id, id ∈ videoIds → videos s !! id = None) → out.1 = NeverSettles).
Proof.
  intros Hkeyed Hout.
  assert (Hfound : Exists (λ id, is_Some (find_id id (getAll (videos s)))) videoIds
                   ↔ ∃ id, id ∈ videoIds ∧ is_Some (videos s !! id)).
  { rewrite Exists_exists. split; intros (id & Hid & Hsome); exists id.
    - now rewrite find_id_getAll in Hsome.
    - now rewrite find_id_getAll. }
  assert (Heq : out = (if bool_decide
                            (Exists (λ id, is_Some (find_id id (getAll (videos s))))
                                    videoIds)
                       then Settles (Rejected TransactionInactiveError)
                       else NeverSettles, openDB s))
    by (destruct Hout as [-> | ->]; apply batch_update_eq).
  subst out. cbn [fst snd]. rewrite videos_openDB, localStorage_openDB.
  split; [done|]. split; [done|]. split; [|split].
  - intros r. now case_bool_decide.
  - intros Hex. rewrite bool_decide_eq_true_2; [done|]. now apply Hfound.
  - intros Hnone. rewrite bool_decide_eq_false_2; [done|].
    intros (id & Hid & Hsome)%Hfound. rewrite (Hnone id Hid) in Hsome.
    now destruct Hsome.
Qed.

(* ===================================================================== *)
(** ** Properties of the hooks *)
(* ===================================================================== *)

Lemma set_completed_same b v : Video.completed v = Some b → set_completed b v = v.
Proof. destruct v. simpl. now intros ->. Qed.

(** X22.  [toggleVideoCompletion] keeps the screen and the storage in step:
    when the [completed] flags on screen are those of the stored completion
    list of the user, they still are after the toggle, which changes no
    flag but that of the video and keeps the list of videos otherwise; and
    toggling a second time brings back the flags that were on screen. *)
Theorem toggleVideoCompletion_in_step user videos videoId ls :
  flags_agree (User.id user) videos ls →
  let out := toggleVideoCompletion (Some user) videos videoId ls in
  flags_agree (User.id user) out.1 out.2 ∧
  Video.id <$> out.1 = Video.id <$> videos ∧
  (∀ v, v ∈ videos → Video.id v ≠ videoId → v ∈ out.1) ∧
  (toggleVideoCompletion (Some user) out.1 videoId out.2).1 = videos.
Proof.
  intros Hagree out. subst out.
  destruct (list_find (λ v, Video.id v = videoId) videos) as [[i video]|] eqn:Hfind.
  - pose proof Hfind as Hfound.
    apply list_find_Some in Hfound as (Hi & Hid & Hleast).
    assert (Hvideo : video ∈ videos) by eauto using list_elem_of_lookup_2.
    pose proof (Hagree video Hvideo) as Hflag. rewrite Hid in Hflag.
    set (b := bool_decide (videoId ∈ stored_completions (User.id user) ls)) in *.
    assert (Hout : toggleVideoCompletion (Some user) videos videoId ls
                   = ((λ v, if bool_decide (Video.id v = videoId)
                            then set_completed (negb b) v else v) <$> videos,
                      updateVideoCompletion (User.id user) videoId (negb b) ls)).
    { unfold toggleVideoCompletion. now rewrite Hfind, Hflag. }
    rewrite !Hout. cbn [fst snd].
    set (ls' := updateVideoCompletion (User.id user) videoId (negb b) ls).
    set (toggled := (λ v, if bool_decide (Video.id v = videoId)
                          then set_completed (negb b) v else v) <$> videos).
    assert (Hagree' : flags_agree (User.id user) toggled ls').
    { subst ls'. intros v (x & -> & Hx)%list_elem_of_fmap.
      case_bool_decide as Hxid; simpl.
      - f_equal. symmetry. destruct (negb b) eqn:Hb.
        + apply bool_decide_eq_true_2, updateVideoCompletion_elem_of.
          now rewrite bool_decide_eq_true_2.
        + apply bool_decide_eq_false_2.
          intros Hin%updateVideoCompletion_elem_of.
          now rewrite bool_decide_eq_true_2 in Hin.
      - rewrite (Hagree x Hx). f_equal. apply bool_decide_ext.
        rewrite updateVideoCompletion_elem_of.
        now rewrite bool_decide_eq_false_2. }
    split; [done|]. split; [|split].
    + subst toggled. rewrite <- list_fmap_compose. apply list_fmap_ext.
      intros j x _. simpl. now case_bool_decide.
    + intros v Hv Hne. apply list_elem_of_fmap. exists v.
      now rewrite bool_decide_eq_false_2.
    + unfold toggleVideoCompletion.
      assert (Hfind' : ∃ j video', list_find (λ v, Video.id v = videoId) toggled
                                   = Some (j, video') ∧
                                   Video.completed video' = Some (negb b)).
      { destruct (list_find (λ v, Video.id v = videoId) toggled)
          as [[j video']|] eqn:Hf.
        - exists j, video'. split; [done|].
          apply list_find_Some in Hf as (Hj & Hjid & _).
          apply list_elem_of_lookup_2, list_elem_of_fmap in Hj as (x & -> & Hx).
          case_bool_decide as Hxid; [done|]. simpl in Hjid. done.
        - apply list_find_None in Hf. rewrite Forall_forall in Hf.
          destruct (Hf (set_completed (negb b) video)); [|done].
          apply list_elem_of_fmap. exists video.
          now rewrite bool_decide_eq_true_2. }
      destruct Hfind' as (j & video' & -> & ->). cbn [fst default].
      change (negb (id (negb b))) with (negb (negb b)).
      rewrite negb_involutive. subst toggled.
      rewrite <- list_fmap_compose.
      rewrite <- (list_fmap_id videos) at 2. apply list_fmap_ext.
      intros k x Hx. simpl.
      assert (Hxin : x ∈ videos) by eauto using list_elem_of_lookup_2.
      destruct (decide (Video.id x = videoId)) as [Hxid|Hxid].
      * rewrite (bool_decide_eq_true_2 _ Hxid). simpl.
        rewrite (bool_decide_eq_true_2 _ Hxid).
        pose proof (Hagree _ Hxin) as Hxflag. rewrite Hxid in Hxflag.
        destruct x; simpl in *. now rewrite Hxflag.
      * rewrite (bool_decide_eq_false_2 _ Hxid).
        now rewrite (bool_decide_eq_false_2 _ Hxid).
  - assert (Hout : toggleVideoCompletion (Some user) videos videoId ls = (videos, ls))
      by (unfold toggleVideoCompletion; now rewrite Hfind).
    rewrite !Hout. cbn [fst snd]. rewrite Hout. done.
Qed.

(** X23.  [updateProgress] keeps the screen and the storage in step: when
    the progress map on screen is the one [getProgressForUser] returns for
    the user (a map as [JSON.parse] returns them), the video id is not
    [__proto__], or the map has an entry of its own under it, and the two
    numbers are finite, the map on screen is again the stored one after the
    update, and holds the new entry. *)
Theorem updateProgress_in_step user progress videoId newProgress duration ls :
  progress = (getProgressForUser (User.id user) ls).1 →
  JSON_progress <$> progress = progress →
  videoId ≠ "__proto__" ∨ is_Some (progress !! videoId) →
  JSON_number newProgress = newProgress →
  JSON_number duration = duration →
  let out := updateProgress (Some user) progress videoId newProgress duration ls in
  out.1 = (getProgressForUser (User.id user) out.2).1 ∧
  out.1 !! videoId = Some {| VideoProgress.progress := newProgress;
                             VideoProgress.duration := duration |}.
Proof.
  intros -> Hparsed Hkey Hprogress Hduration out. subst out.
  unfold updateProgress. cbn [fst snd].
  split; [|apply lookup_insert_eq].
  unfold updateVideoProgress.
  destruct (getProgressForUser (User.id user) ls) as [userProgress ls0].
  cbn [fst] in *.
  rewrite getProgressForUser_saved. cbn [fst].
  unfold Object_set. rewrite bool_decide_eq_false_2.
  - rewrite fmap_insert, Hparsed. unfold JSON_progress. cbn.
    now rewrite Hprogress, Hduration.
  - intros [-> Hnone]. destruct Hkey as [?|[? Hsome]]; [done|congruence].
Qed.

(** X24.  The auth functions never put a password into [sessionStorage]:
    when [login], [register] or [updateProfile] returns, the session item is
    the user of the state, without a password field; when one of them
    throws, the state and the session item are the ones before the call;
    [logout] removes both. *)
Theorem session_never_holds_a_password email password now userData updatedData a ls :
  let clean_or_unchanged (out : thrown * Auth * Storage) :=
    match out.1.1 with
    | Returned => session_clean out.1.2 ∧ is_Some (auth_user out.1.2)
    | Threw _ => out.1.2 = a
    end in
  clean_or_unchanged (login email password a ls) ∧
  clean_or_unchanged (register now userData a ls) ∧
  clean_or_unchanged (updateProfile updatedData a ls) ∧
  logout a = mkAuth None None.
Proof.
  intros clean_or_unchanged. subst clean_or_unchanged. cbn beta.
  split; [|split; [|split; [|done]]].
  - unfold login. rewrite authenticateUser_eq.
    destruct (list_find _ _) as [[i u]|]; [|done].
    case_bool_decide; [|done]. simpl. split; [split|]; eauto.
    now intros ? [= <-].
  - unfold register. rewrite registerStudent_eq.
    case_bool_decide; [done|]. simpl. split; [split|]; eauto.
    now intros ? [= <-].
  - unfold updateProfile. destruct (auth_user a) as [user|]; [|done].
    rewrite updateUserProfile_eq.
    destruct (list_find _ _) as [[i u]|]; [|done]. cbn [fst snd].
    destruct (_ !! i) as [updated|]; [|done]. simpl.
    split; [split|]; eauto. now intros ? [= <-].
Qed.

Lemma fmap_replace_NoDup (users : list User) userId i u x :
  NoDup (User.id <$> users) → users !! i = Some u → User.id u = userId →
  (λ u, if bool_decide (User.id u = userId) then x else u) <$> users
  = <[i := x]> users.
Proof.
  intros Hnd Hi Hid. apply list_eq. intros j.
  rewrite list_lookup_fmap.
  destruct (decide (j = i)) as [->|Hne].
  - rewrite Hi. simpl. rewrite bool_decide_eq_true_2 by done.
    symmetry. apply list_lookup_insert_eq. eauto using lookup_lt_Some.
  - rewrite list_lookup_insert_ne by done.
    destruct (users !! j) as [y|] eqn:Hj; [|done]. simpl.
    rewrite bool_decide_eq_false_2; [done|].
    intros Hy. apply Hne. apply (NoDup_lookup _ j i userId Hnd).
    + rewrite list_lookup_fmap, Hj. simpl. now f_equal.
    + rewrite list_lookup_fmap, Hi. simpl. now f_equal.
Qed.

Lemma userWithoutPassword_idemp u :
  userWithoutPassword (userWithoutPassword u) = userWithoutPassword u.
Proof. now destruct u. Qed.

(** X25.  The list of [useUsers] and the stored table: when the list on
    screen is the table, it still is after [deleteUser]; after [updateUser]
    of an id that a user has, the ids being pairwise distinct, the table
    holds the merged user at the place of the old one and the screen holds
    it without its password, so that the two lists are equal once the
    passwords are left out; [updateUser] of an id that nobody has changes
    neither. *)
Theorem useUsers_in_step users userId data ls :
  users = (getUsers ls).1 →
  let deleted := useUsers_deleteUser users userId ls in
  let updated := updateUser users userId data ls in
  deleted.1 = (getUsers deleted.2).1 ∧
  (∀ i u, list_find (has_id userId) users = Some (i, u) →
          NoDup (User.id <$> users) →
          (getUsers updated.2).1 = <[i := spread_user u data]> users ∧
          updated.1 = <[i := userWithoutPassword (spread_user u data)]> users ∧
          userWithoutPassword <$> updated.1
          = userWithoutPassword <$> (getUsers updated.2).1) ∧
  (list_find (has_id userId) users = None →
   updated.1 = users ∧ (getUsers updated.2).1 = users).
Proof.
  intros -> deleted updated. subst deleted updated.
  unfold useUsers_deleteUser, updateUser. cbn [fst snd].
  rewrite deleteUser_eq, getUsers_saved, updateUserProfile_eq. cbn [fst].
  split; [done|]. split.
  - intros i u Hfind Hnd. rewrite Hfind.
    apply list_find_Some in Hfind as (Hi & Hid & _).
    assert (Hlt : (i < length (getUsers ls).1)%nat) by eauto using lookup_lt_Some.
    rewrite list_lookup_insert_eq by done. cbn [fmap option_fmap option_map fst snd].
    rewrite getUsers_saved. cbn [fst].
    rewrite (fmap_replace_NoDup _ _ _ _ _ Hnd Hi Hid).
    split; [done|]. split; [done|].
    rewrite !list_fmap_insert. now rewrite userWithoutPassword_idemp.
  - intros Hfind. rewrite Hfind. cbn [fst snd].
    split; [done|]. now rewrite getUsers_again.
Qed.

(** X26.  The emails of the table stay pairwise distinct, letter case put
    aside, along any series of registrations, changes of password, deletions
    and profile updates, as long as no profile update sends an email. *)
Theorem unique_emails_invariant (ops : list user_operation) ls :
  Forall sends_no_email ops →
  unique_emails (getUsers ls).1 →
  unique_emails (getUsers (foldl run_operation ls ops)).1.
Proof.
  intros Hops. revert ls.
  induction Hops as [|op ops Hop _ IH]; intros ls Huniq; [done|].
  cbn [foldl]. apply IH.
  destruct op as [now userData|userId oldPass newPass|userId|userId updatedData];
    cbn [run_operation].
  - exact (proj1 (unique_emails_preserved now userData EmptyString EmptyString
                    EmptyString email_patch ls Huniq)).
  - exact (proj1 (proj2 (unique_emails_preserved 0 carol userId oldPass newPass
                           email_patch ls Huniq))).
  - exact (proj1 (proj2 (proj2 (unique_emails_preserved 0 carol userId EmptyString
                                  EmptyString email_patch ls Huniq)))).
  - exact (proj2 (proj2 (proj2 (unique_emails_preserved 0 carol userId EmptyString
                                  EmptyString updatedData ls Huniq))) Hop).
Qed.

End db.

(* ===================================================================== *)
(** ** The properties on sample data *)
(* ===================================================================== *)

Lemma catalog_keyed : keyed catalog.
Proof.
  intros k v. unfold catalog.
  rewrite lookup_insert. case_decide; [now intros [= <-]|].
  rewrite lookup_insert. case_decide; [now intros [= <-]|].
  now rewrite lookup_empty.
Defined.

(** C1.  The batch updates do not take effect.  On the catalog of two
    draft lessons, [updateMultipleVideosStatus(['v1', 'v9'], 'published')]
    rejects with a [TransactionInactiveError] and [v1] is still a draft: the
    transaction was opened before [await getRawVideos()] and has committed,
    empty, when [store.put] is called.  With ids that are all missing the
    promise never settles.  [addTagsToMultipleVideos] does the same, while
    [deleteMultipleVideos], which queues its requests in the task that
    opened the transaction, deletes [v1], passes over [v9] and resolves. *)
Lemma batch_update_after_await :
  let s := mkState true catalog empty_storage in
  updateMultipleVideosStatus ["v1"; "v9"] published s
  = (Settles (Rejected TransactionInactiveError), s) ∧
  Video.status
    <$> videos (updateMultipleVideosStatus ["v1"; "v9"] published s).2 !! "v1"
  = Some draft ∧
  updateMultipleVideosStatus ["v9"] published s = (NeverSettles, s) ∧
  addTagsToMultipleVideos ["v1"; "v9"] ["algebra"] s
  = (Settles (Rejected TransactionInactiveError), s) ∧
  deleteMultipleVideos Commits ["v1"; "v9"] s
  = (Resolved (), mkState true {[ "v2" := lesson "v2" "2024-02-01" ]} empty_storage).
Proof. repeat split. Qed.

(** C2: a users item that does not parse is still there after [getUsers]
    returned the default; nothing was saved. *)
Lemma unparsable_users_not_healed :
  let ls := setItem USERS_KEY (Text "{oops") empty_storage in
  getUsers [alice] ls = ([], ls) ∧
  getItem USERS_KEY (getUsers [alice] ls).2 = Some (Text "{oops") ∧
  getItem USERS_KEY (getUsers [alice] ls).2 ≠ Some (Doc (Shaped [])) ∧
  getItem USERS_KEY (getUsers [alice] ls).2 ≠ Some (Doc (Shaped [alice])).
Proof. repeat split; discriminate. Qed.

(** C2: a users item that holds [null] is reset to the seed users. *)
Lemma malformed_values_are_healed_witness :
  "1" ≠ EmptyString ∧
  getUsers [alice] (setItem USERS_KEY (Doc (Misshapen MNull)) empty_storage)
  = ([alice], storage_of [alice]).
Proof.
  split; [discriminate|].
  apply (malformed_values_are_healed [alice] sample_time left_in_place MNull "{oops" "1"
           false ∅ empty_storage).
  discriminate.
Defined.

(** C4: on a page where [initDB] never ran, [getVideos] resolves, to the
    empty catalog. *)
Lemma getVideos_before_initDB :
  db fresh = false ∧
  getVideos sample_time left_in_place None fresh
  = (Resolved [], mkState true ∅ empty_storage) ∧
  ∀ e, (getVideos sample_time left_in_place None fresh).1 ≠ Rejected e.
Proof. repeat split. discriminate. Qed.

(** C5.  [updateUserProfile] does not keep the emails pairwise distinct: on
    the table of [alice] and [bob], whose emails differ,
    [updateUserProfile('2', { email: 'Alice@School.org' })] succeeds and
    stores a table in which [bob] has the email of [alice] up to letter
    case. *)
Lemma updateUserProfile_duplicates_email :
  unique_emails ASCII_toLowerCase [alice; bob] ∧
  ∃ u ls,
    updateUserProfile [] "2" email_patch (storage_of [alice; bob]) = (Some u, ls) ∧
    (getUsers [] ls).1 = [alice; spread_user bob email_patch] ∧
    email_key ASCII_toLowerCase (spread_user bob email_patch)
    = email_key ASCII_toLowerCase alice ∧
    ¬ unique_emails ASCII_toLowerCase (getUsers [] ls).1.
Proof.
  split.
  - unfold unique_emails. apply (bool_decide_unpack _). reflexivity.
  - eexists _, _. split; [reflexivity|]. split; [reflexivity|]. split; [reflexivity|].
    unfold unique_emails. apply (bool_decide_unpack _). reflexivity.
Qed.

(** C6: a store in which one [uploadedAt] is not a date.  The comparator
    returns NaN on that record and the order of the listing is the one the
    engine leaves; with an engine that leaves such an array as it is, the
    lesson of March is listed after the lesson of January. *)
Lemma getVideos_unparsable_date :
  let a := lesson "a" "2024-01-01" in
  let b := lesson "b" "not a date" in
  let c := lesson "c" "2024-03-01" in
  let s := mkState true {[ "a" := a; "b" := b; "c" := c ]} empty_storage in
  upload_time sample_time b = None ∧
  (∀ engine,
      (getVideos sample_time engine None s).1
      = Resolved (if bool_decide (engine (by_upload_desc sample_time) [a; b; c]
                                  ≡ₚ [a; b; c])
                  then engine (by_upload_desc sample_time) [a; b; c]
                  else [a; b; c])) ∧
  (getVideos sample_time left_in_place None s).1 = Resolved [a; b; c] ∧
  ¬ StronglySorted (newest_first sample_time) [a; b; c].
Proof.
  intros a b c s. split; [reflexivity|]. split; [intros engine; reflexivity|].
  split; [reflexivity|].
  intros Hsorted. apply StronglySorted_inv in Hsorted as [_ Hfirst].
  apply Forall_cons in Hfirst as [_ Hfirst].
  apply Forall_cons in Hfirst as [Hac _].
  specialize (Hac 1704067200000 1709251200000 eq_refl eq_refl). lia.
Qed.

(** C6, on the sample catalog: the lesson of February comes first. *)
Lemma getVideos_newest_first_stable_witness :
  dated sample_time catalog ∧
  ∃ l, StronglySorted (newest_first sample_time) l ∧
       (getVideos sample_time left_in_place None
          (mkState true catalog empty_storage)).1 = Resolved l.
Proof.
  assert (Hdated : dated sample_time (videos (mkState true catalog empty_storage))).
  { intros k v Hv. rewrite <- (catalog_keyed k v Hv) in Hv. clear k.
    unfold catalog in Hv. cbn [videos] in Hv.
    apply lookup_insert_Some in Hv as [[_ <-]|[_ Hv]]; [now eexists|].
    apply lookup_insert_Some in Hv as [[_ <-]|[_ Hv]]; [now eexists|].
    now rewrite lookup_empty in Hv. }
  split; [exact Hdated|].
  destruct (getVideos_newest_first_stable sample_time left_in_place None
              (mkState true catalog empty_storage) Hdated)
    as (l & _ & _ & Hsorted & _ & Hlist & _).
  exists l. split; [exact Hsorted|exact Hlist].
Defined.

(** C7: [bob] logs in and [carol] registers; neither returned user carries a
    password. *)
Lemma returned_user_has_no_password_witness :
  let ls := storage_of [alice; bob] in
  authenticateUser ASCII_toLowerCase [] "bob@school.org" "pw-b" ls
  = (Some (userWithoutPassword bob), ls) ∧
  User.password (userWithoutPassword bob) = None ∧
  registerStudent ASCII_toLowerCase [] 1700000000000 carol ls
  = (Some (userWithoutPassword (newUser 1700000000000 carol)),
     storage_of [alice; bob; newUser 1700000000000 carol]) ∧
  User.password (userWithoutPassword (newUser 1700000000000 carol)) = None.
Proof.
  intros ls.
  destruct (returned_user_has_no_password ASCII_toLowerCase [] "bob@school.org" "pw-b"
              1700000000000 carol ls) as [Hauth Hreg].
  split; [reflexivity|]. split; [|split; [reflexivity|]].
  - apply (Hauth _ ls). reflexivity.
  - apply (Hreg _ (storage_of [alice; bob; newUser 1700000000000 carol])).
    reflexivity.
Defined.

(** C8: updating a video or a user that does not exist returns [null]. *)
Lemma update_of_missing_id_not_thrown :
  catalog !! "v9" = None ∧
  updateVideo "v9" title_patch (mkState true catalog empty_storage)
  = (Resolved None, mkState true catalog empty_storage) ∧
  (∀ e, (updateVideo "v9" title_patch (mkState true catalog empty_storage)).1
        ≠ Rejected e) ∧
  Forall (λ u, User.id u ≠ "9") [alice; bob] ∧
  updateUserProfile [] "9" email_patch (storage_of [alice; bob])
  = (None, storage_of [alice; bob]).
Proof. repeat split; try discriminate. repeat constructor; discriminate. Qed.

(** C8, on the sample catalog and user table. *)
Lemma update_of_missing_id_returns_null_witness :
  catalog !! "v9" = None ∧
  (∀ u, u ∈ (getUsers [] (storage_of [alice; bob])).1 → User.id u ≠ "9") ∧
  updateVideo "v9" title_patch (mkState true catalog empty_storage)
  = (Resolved None, openDB (mkState true catalog empty_storage)) ∧
  updateUserProfile [] "9" email_patch (storage_of [alice; bob])
  = (None, (getUsers [] (storage_of [alice; bob])).2).
Proof.
  assert (H : ∀ u, u ∈ (getUsers [] (storage_of [alice; bob])).1 → User.id u ≠ "9").
  { intros u Hu. change (u ∈ [alice; bob]) in Hu.
    apply elem_of_cons in Hu as [->|Hu]; [discriminate|].
    apply list_elem_of_singleton in Hu as ->. discriminate. }
  destruct (update_of_missing_id_returns_null [] "v9" title_patch
              (mkState true catalog empty_storage) "9" email_patch
              (storage_of [alice; bob]) eq_refl H) as (Hv & _ & _ & Hu & _).
  split; [reflexivity|]. split; [exact H|]. split; [exact Hv|exact Hu].
Defined.

(** C9: once [updateUserProfile] has given [bob], who is disabled, the email
    of [alice], [bob] is a stored user, but [alice] comes first under that
    email: a login with the email and password of [bob] is rejected. *)
Lemma second_user_of_an_email_rejected :
  let ls := (updateUserProfile [] "2" email_patch (storage_of [alice; bob])).2 in
  let bob' := spread_user bob email_patch in
  bob' ∈ (getUsers [] ls).1 ∧
  User.status bob' = disabled ∧
  User.password bob' = Some "pw-b" ∧
  (authenticateUser ASCII_toLowerCase [] (User.email bob') "pw-b" ls).1 = None ∧
  (authenticateUser ASCII_toLowerCase [] (User.email bob') "pw-b" ls).1
  ≠ Some (userWithoutPassword bob').
Proof.
  intros ls bob'. split; [|repeat split; discriminate].
  change (bob' ∈ [alice; bob']). apply elem_of_cons. right. apply elem_of_cons. now left.
Qed.

(** C9: [bob] is disabled and alone with his email; he logs in. *)
Lemma authenticateUser_ignores_status_witness :
  list_find (same_email ASCII_toLowerCase (User.email bob)) (getUsers [] (storage_of [alice; bob])).1
  = Some (1%nat, bob) ∧
  User.status bob = disabled ∧
  User.password bob = Some "pw-b" ∧
  ASCII_toLowerCase "BOB@School.org" = ASCII_toLowerCase (User.email bob) ∧
  (authenticateUser ASCII_toLowerCase [] "BOB@School.org" "pw-b" (storage_of [alice; bob])).1
  = Some (userWithoutPassword bob).
Proof.
  pose proof (authenticateUser_ignores_status ASCII_toLowerCase [] (storage_of [alice; bob]) 1 bob
                "BOB@School.org" "pw-b" eq_refl eq_refl eq_refl eq_refl) as H.
  split; [reflexivity|]. split; [reflexivity|]. split; [reflexivity|].
  split; [reflexivity|]. exact (proj1 H).
Defined.

(** C10: [v1] is already completed. *)
Lemma updateVideoCompletion_NoDup_witness :
  let ls := setItem (getCompletionsKey "1") (Doc (Shaped ["v1"; "v2"])) empty_storage in
  getItem (getCompletionsKey "1") ls = Some (Doc (Shaped ["v1"; "v2"])) ∧
  NoDup ["v1"; "v2"] ∧
  ("v1" ∈ ["v1"; "v2"] → updateVideoCompletion "1" "v1" true ls = ls).
Proof.
  assert (Hnd : NoDup ["v1"; "v2"]).
  { apply (bool_decide_unpack _). reflexivity. }
  intros ls. split; [reflexivity|]. split; [exact Hnd|].
  exact (proj1 (updateVideoCompletion_NoDup "1" "v1" ["v1"; "v2"] ls eq_refl Hnd)).
Defined.

(** C3, on a page whose storage still holds a legacy catalog of one lesson:
    the migration does not fail, the lesson is in the store after one run
    and after two, and the legacy key is gone. *)
Lemma initDB_idempotent_witness :
  let s := mkState false ∅
             (setItem VIDEOS_KEY (Doc (Shaped [lesson "v3" "2024-03-01"])) empty_storage) in
  (migrateLocalStorageToIndexedDB s).1 ≠ FailedToMigrate ∧
  getItem VIDEOS_KEY (localStorage (initDB [alice] [] s)) = None ∧
  videos (initDB [alice] [] (initDB [alice] [] s)) = {[ "v3" := lesson "v3" "2024-03-01" ]} ∧
  getItem VIDEOS_KEY (localStorage (initDB [alice] [] (initDB [alice] [] s))) = None.
Proof.
  intros s.
  destruct (initDB_idempotent [alice] [] s) as (_ & Hvideos & Hkey & _ & _).
  split; [discriminate|]. split; [reflexivity|]. split.
  - rewrite Hvideos. reflexivity.
  - apply Hkey. reflexivity.
Defined.

(** *** The further properties on sample data *)

Lemma catalog_not_empty : catalog ≠ ∅.
Proof. intros H. apply (f_equal (λ m : ObjectStore, m !! "v1")) in H. discriminate H. Defined.

Lemma alice_bob_unique : unique_emails ASCII_toLowerCase [alice; bob].
Proof. unfold unique_emails. apply (bool_decide_unpack _). reflexivity. Defined.

(** X1: an upload into the sample catalog. *)
Lemma addVideo_then_listed_witness :
  catalog !! Video.id (newVideo 1700000000000 upload) = None ∧
  (addVideo 1700000000000 upload (mkState true catalog empty_storage)).1
  = Resolved (newVideo 1700000000000 upload).
Proof.
  assert (H : videos (mkState true catalog empty_storage)
              !! Video.id (newVideo 1700000000000 upload) = None)
    by (vm_compute; reflexivity).
  split; [exact H|].
  destruct (addVideo_then_listed sample_time left_in_place 1700000000000 upload
              (mkState true catalog empty_storage) H) as (Hres & _).
  exact Hres.
Defined.

(** X3: a new title for [v1]. *)
Lemma updateVideo_merges_witness :
  keyed catalog ∧
  catalog !! "v1" = Some (lesson "v1" "2024-01-01") ∧
  (updateVideo "v1" title_patch (mkState true catalog empty_storage)).1
  = Resolved (Some (spread_video (lesson "v1" "2024-01-01") title_patch)).
Proof.
  split; [exact catalog_keyed|]. split; [reflexivity|].
  destruct (updateVideo_merges "v1" title_patch (lesson "v1" "2024-01-01")
              (mkState true catalog empty_storage) catalog_keyed eq_refl
              (or_introl eq_refl)) as (Hres & _).
  exact Hres.
Defined.

(** X4: a patch for [v1] that carries the id [v9]. *)
Lemma updateVideo_with_another_id_witness :
  catalog !! "v1" = Some (lesson "v1" "2024-01-01") ∧
  "v9" ≠ "v1" ∧
  videos (updateVideo "v1" id_patch (mkState true catalog empty_storage)).2 !! "v1"
  = Some (lesson "v1" "2024-01-01") ∧
  videos (updateVideo "v1" id_patch (mkState true catalog empty_storage)).2 !! "v9"
  = Some (spread_video (lesson "v1" "2024-01-01") id_patch).
Proof.
  assert (Hne : "v9" ≠ "v1") by discriminate.
  split; [reflexivity|]. split; [exact Hne|].
  destruct (updateVideo_with_another_id "v1" "v9" id_patch (lesson "v1" "2024-01-01")
              (mkState true catalog empty_storage) eq_refl eq_refl Hne)
    as (_ & Hold & Hnew & _).
  split; [exact Hold|exact Hnew].
Defined.

(** X7: a reset to two seed lessons. *)
Lemma resetVideos_replaces_catalog_witness :
  NoDup (Video.id <$> [lesson "v1" "2024-01-01"; lesson "v3" "2024-03-01"]) ∧
  (resetVideos [lesson "v1" "2024-01-01"; lesson "v3" "2024-03-01"]
     (mkState true catalog empty_storage)).1 = Resolved ().
Proof.
  assert (Hnd : NoDup (Video.id <$> [lesson "v1" "2024-01-01"; lesson "v3" "2024-03-01"])).
  { apply (bool_decide_unpack _). reflexivity. }
  split; [exact Hnd|].
  destruct (resetVideos_replaces_catalog
              [lesson "v1" "2024-01-01"; lesson "v3" "2024-03-01"]
              (mkState true catalog empty_storage)) as (Hreset & _).
  exact (proj1 (Hreset Hnd)).
Defined.

(** X8: a startup on a catalog that holds two lessons seeds nothing. *)
Lemma initDB_seeds_only_an_empty_store_witness :
  legacy_inert empty_storage ∧
  catalog ≠ ∅ ∧
  videos (initDB [alice] [lesson "v3" "2024-03-01"] (mkState true catalog empty_storage))
  = catalog.
Proof.
  assert (Hinert : legacy_inert (localStorage (mkState true catalog empty_storage))).
  { intros v. discriminate. }
  split; [exact Hinert|]. split; [exact catalog_not_empty|].
  destruct (initDB_seeds_only_an_empty_store [alice] [lesson "v3" "2024-03-01"]
              (mkState true catalog empty_storage) Hinert) as (Hkeep & _).
  exact (Hkeep catalog_not_empty).
Defined.

(** X9: a startup with a legacy list of one lesson. *)
Lemma initDB_upserts_legacy_videos_witness :
  let s := mkState false catalog
             (setItem VIDEOS_KEY (Doc (Shaped [lesson "v3" "2024-03-01"])) empty_storage) in
  [lesson "v3" "2024-03-01"] ≠ [] ∧
  getItem VIDEOS_KEY (localStorage (initDB [alice] [] s)) = None ∧
  videos (initDB [alice] [] s) !! "v3" = Some (lesson "v3" "2024-03-01") ∧
  videos (initDB [alice] [] s) !! "v1" = Some (lesson "v1" "2024-01-01").
Proof.
  intros s.
  assert (Hne : [lesson "v3" "2024-03-01"] ≠ []) by discriminate.
  destruct (initDB_upserts_legacy_videos [alice] [] s [lesson "v3" "2024-03-01"]
              eq_refl Hne) as (Hkey & Hstore).
  split; [exact Hne|]. split; [exact Hkey|].
  split; [exact (Hstore "v3")|exact (Hstore "v1")].
Defined.

(** X10: a startup on a table that holds [bob] alone. *)
Lemma initDB_keeps_user_data_witness :
  let s := mkState false ∅ (storage_of [bob]) in
  truthy (getItem USERS_KEY (localStorage s)) = true ∧
  (getUsers [alice] (localStorage (initDB [alice] [] s))).1 = (getUsers [alice] (localStorage s)).1.
Proof.
  intros s.
  destruct (initDB_keeps_user_data [alice] [] s) as (Hkeep & _).
  split; [reflexivity|]. exact (proj2 (Hkeep eq_refl)).
Defined.

(** X11: [carol] registers and logs in. *)
Lemma registerStudent_then_authenticate_witness :
  let ls := storage_of [alice; bob] in
  let ls' := storage_of [alice; bob; newUser 1700000000000 carol] in
  let u := userWithoutPassword (newUser 1700000000000 carol) in
  registerStudent ASCII_toLowerCase [] 1700000000000 carol ls = (Some u, ls') ∧
  ASCII_toLowerCase "CAROL@School.org" = ASCII_toLowerCase (UserData.email carol) ∧
  authenticateUser ASCII_toLowerCase [] "CAROL@School.org" "pw-c" ls' = (Some u, ls').
Proof.
  intros ls ls' u.
  destruct (registerStudent_then_authenticate ASCII_toLowerCase [] 1700000000000 carol ls u ls'
              "CAROL@School.org" "pw-c" eq_refl eq_refl eq_refl) as (Hauth & _).
  split; [reflexivity|]. split; [reflexivity|exact Hauth].
Defined.

(** X12: [carol] registers twice. *)
Lemma registerStudent_twice_witness :
  ASCII_toLowerCase (UserData.email carol) = ASCII_toLowerCase (UserData.email carol) ∧
  (registerStudent ASCII_toLowerCase [] 1700000000001 carol
     (registerStudent ASCII_toLowerCase [] 1700000000000 carol (storage_of [alice; bob])).2).1 = None.
Proof.
  split; [reflexivity|].
  pose proof (registerStudent_twice ASCII_toLowerCase [] 1700000000000 1700000000001 carol carol
                (storage_of [alice; bob]) eq_refl) as H.
  exact (f_equal fst H).
Defined.

(** X13: [bob] changes his password. *)
Lemma changePassword_then_authenticate_witness :
  let ls := storage_of [alice; bob] in
  list_find (has_id "2") (getUsers [] ls).1 = Some (1%nat, bob) ∧
  list_find (same_email ASCII_toLowerCase (User.email bob)) (getUsers [] ls).1 = Some (1%nat, bob) ∧
  User.password bob = Some "pw-b" ∧
  (changePassword [] "2" "pw-b" "pw-new" ls).1 = true.
Proof.
  intros ls.
  destruct (changePassword_then_authenticate ASCII_toLowerCase [] "2" "pw-b" "pw-new" ls 1 bob
              eq_refl eq_refl eq_refl) as (Hres & _).
  split; [reflexivity|]. split; [reflexivity|]. split; [reflexivity|exact Hres].
Defined.

(** X16: the profile form sends a password for [bob]. *)
Lemma updateUserProfile_can_set_password_witness :
  let ls := storage_of [alice; bob] in
  list_find (has_id "2") (getUsers [] ls).1 = Some (1%nat, bob) ∧
  list_find (same_email ASCII_toLowerCase (User.email bob)) (getUsers [] ls).1 = Some (1%nat, bob) ∧
  PartialUser.email password_patch = None ∧
  PartialUser.password password_patch = Some "pw-new" ∧
  (authenticateUser ASCII_toLowerCase [] (User.email bob) "pw-new"
     (updateUserProfile [] "2" password_patch ls).2).1
  = Some (userWithoutPassword (spread_user bob password_patch)).
Proof.
  intros ls.
  destruct (updateUserProfile_can_set_password ASCII_toLowerCase [] "2" password_patch ls 1 bob "pw-new"
              eq_refl eq_refl eq_refl eq_refl) as (_ & _ & Hauth).
  split; [reflexivity|]. split; [reflexivity|]. split; [reflexivity|].
  split; [reflexivity|]. exact (f_equal fst Hauth).
Defined.

(** X17: the first progress report of user [1], sent before the player
    knows the duration of the video, which is NaN then. *)
Lemma updateVideoProgress_then_read_witness :
  let ls' := updateVideoProgress "1" "v1" twelve_and_a_half NaN empty_storage in
  "2" ≠ "1" ∧
  JSON_progress <$> (getProgressForUser "1" empty_storage).1
  = (getProgressForUser "1" empty_storage).1 ∧
  (getProgressForUser "1" ls').1
  = {[ "v1" := {| VideoProgress.progress := twelve_and_a_half;
                  VideoProgress.duration := null_number |} ]}.
Proof.
  intros ls'.
  assert (Hne : "2" ≠ "1") by discriminate.
  split; [exact Hne|]. split; [reflexivity|].
  destruct (updateVideoProgress_then_read "1" "2" "v1" twelve_and_a_half NaN
              empty_storage Hne eq_refl) as (Hread & _).
  exact (f_equal fst Hread).
Defined.

(** X20: user [1] completes [v1]. *)
Lemma updateVideoCompletion_then_listed_witness :
  "1" ≠ EmptyString ∧
  ∃ l, getVideos sample_time left_in_place (Some "1")
         (mkState true catalog (updateVideoCompletion "1" "v1" true empty_storage))
       = (Resolved l,
          mkState true catalog (updateVideoCompletion "1" "v1" true empty_storage)).
Proof.
  assert (Hne : "1" ≠ EmptyString) by discriminate.
  split; [exact Hne|].
  destruct (updateVideoCompletion_then_listed sample_time left_in_place "1" "v1" true true catalog
              empty_storage Hne) as (l & Hl & _).
  exists l. exact Hl.
Defined.

(** X21: publishing [v1] and an id that is not in the store. *)
Lemma batch_updates_store_nothing_witness :
  keyed catalog ∧
  (∃ id, id ∈ ["v1"; "v9"] ∧ is_Some (catalog !! id)) ∧
  (updateMultipleVideosStatus ["v1"; "v9"] published
     (mkState true catalog empty_storage)).1
  = Settles (Rejected TransactionInactiveError).
Proof.
  assert (Hex : ∃ id, id ∈ ["v1"; "v9"] ∧ is_Some (catalog !! id)).
  { exists "v1". split; [apply elem_of_cons; left; reflexivity|].
    exists (lesson "v1" "2024-01-01"). reflexivity. }
  split; [exact catalog_keyed|]. split; [exact Hex|].
  destruct (batch_updates_store_nothing ["v1"; "v9"] published []
              (mkState true catalog empty_storage) _ catalog_keyed
              (or_introl eq_refl)) as (_ & _ & _ & Hthrows & _).
  exact (Hthrows Hex).
Defined.

(** X22: [alice] ticks a lesson that was not completed. *)
Lemma toggleVideoCompletion_in_step_witness :
  let videos := [set_completed false (lesson "v1" "2024-01-01")] in
  flags_agree "1" videos empty_storage ∧
  flags_agree "1" (toggleVideoCompletion (Some alice) videos "v1" empty_storage).1
    (toggleVideoCompletion (Some alice) videos "v1" empty_storage).2.
Proof.
  intros videos.
  assert (Hagree : flags_agree (User.id alice) videos empty_storage).
  { intros v Hv. apply list_elem_of_singleton in Hv. rewrite Hv. reflexivity. }
  split; [exact Hagree|].
  destruct (toggleVideoCompletion_in_step alice videos "v1" empty_storage Hagree)
    as (Hafter & _).
  exact Hafter.
Defined.

(** X23: the first progress report of [alice]. *)
Lemma updateProgress_in_step_witness :
  let out := updateProgress (Some alice) ∅ "v1" twelve_and_a_half two_minutes
               empty_storage in
  (∅ : UserProgress) = (getProgressForUser "1" empty_storage).1 ∧
  "v1" ≠ "__proto__" ∧
  JSON_number twelve_and_a_half = twelve_and_a_half ∧
  JSON_number two_minutes = two_minutes ∧
  out.1 = (getProgressForUser "1" out.2).1.
Proof.
  intros out.
  assert (Hne : "v1" ≠ "__proto__") by discriminate.
  destruct (updateProgress_in_step alice ∅ "v1" twelve_and_a_half two_minutes
              empty_storage eq_refl eq_refl (or_introl Hne) eq_refl eq_refl)
    as (Hstep & _).
  split; [reflexivity|]. split; [exact Hne|]. split; [reflexivity|].
  split; [reflexivity|exact Hstep].
Defined.

(** X25: the admin deletes [bob]. *)
Lemma useUsers_in_step_witness :
  let ls := storage_of [alice; bob] in
  [alice; bob] = (getUsers [] ls).1 ∧
  (useUsers_deleteUser [] [alice; bob] "2" ls).1
  = (getUsers [] (useUsers_deleteUser [] [alice; bob] "2" ls).2).1.
Proof.
  intros ls.
  destruct (useUsers_in_step [] [alice; bob] "2" password_patch ls eq_refl)
    as (Hdeleted & _).
  split; [reflexivity|exact Hdeleted].
Defined.

(** X26: [carol] registers, [alice] is deleted, [bob] gets a new password. *)
Lemma unique_emails_invariant_witness :
  let ops := [RegisterStudent 1700000000000 carol; DeleteUser "1";
              UpdateUserProfile "2" password_patch] in
  Forall sends_no_email ops ∧
  unique_emails ASCII_toLowerCase (getUsers [] (storage_of [alice; bob])).1 ∧
  unique_emails ASCII_toLowerCase
    (getUsers [] (foldl (run_operation ASCII_toLowerCase [])
                        (storage_of [alice; bob]) ops)).1.
Proof.
  intros ops.
  assert (Hops : Forall sends_no_email ops).
  { apply Forall_cons_2; [exact I|]. apply Forall_cons_2; [exact I|].
    apply Forall_cons_2; [reflexivity|]. apply Forall_nil_2. }
  split; [exact Hops|]. split; [exact alice_bob_unique|].
  exact (unique_emails_invariant ASCII_toLowerCase [] ops (storage_of [alice; bob])
           Hops alice_bob_unique).
Defined.

(** *** The embedding at work *)

Example initDB_seeds_a_fresh_page :
  initDB [alice; bob] [lesson "v1" "2024-01-01"] fresh
  = mkState true {[ "v1" := lesson "v1" "2024-01-01" ]} (storage_of [alice; bob]).
Proof. reflexivity. Qed.

Example initDB_keeps_unparsable_legacy_item :
  initDB [alice] [] (mkState false ∅ (setItem VIDEOS_KEY (Text "[{") empty_storage))
  = mkState true ∅ (setItem VIDEOS_KEY (Text "[{") (storage_of [alice])).
Proof. reflexivity. Qed.

Example getVideos_lists_latest_first :
  (getVideos sample_time left_in_place None (mkState true catalog empty_storage)).1
  = Resolved [lesson "v2" "2024-02-01"; lesson "v1" "2024-01-01"].
Proof. reflexivity. Qed.

Example resetVideos_rejects_with_null :
  resetVideos [lesson "v1" "2024-01-01"; lesson "v1" "2024-03-01"]
    (mkState true catalog empty_storage)
  = (Rejected null, mkState true catalog empty_storage).
Proof. reflexivity. Qed.

Example updateVideoProgress_loses___proto__ :
  updateVideoProgress "1" "__proto__" twelve_and_a_half two_minutes empty_storage
  = setItem (getProgressKey "1") (Doc (Shaped ∅)) empty_storage ∧
  (updateProgress (Some alice) ∅ "__proto__" twelve_and_a_half two_minutes
     empty_storage).1
  = {[ "__proto__" := {| VideoProgress.progress := twelve_and_a_half;
                         VideoProgress.duration := two_minutes |} ]}.
Proof. split; reflexivity. Qed.

Example ASCII_toLowerCase_sample :
  ASCII_toLowerCase "Alice@School.ORG" = "alice@school.org".
Proof. reflexivity. Qed.
